(** * dsa::doubly_linked_list: a model of the list over an explicit node store

    The embedding follows [DataStructuresAlgorithms/lists/doubly_linked_list.hpp].
    Nodes live in a store keyed by their address; the two [std::shared_ptr]
    links of a node and the two end links of a list are optional addresses
    ([None] is [nullptr]).  Every member function takes the store and the
    list handle and returns the new store and handle, so that two handles
    over one store (and a handle used as both operands) share their nodes as
    the C++ objects do. *)

From stdpp Require Import base numbers option fin_maps gmap list.

Open Scope Z_scope.

(** ** Outcomes of running a member function *)

Inductive outcome (A : Type) : Type :=
  | Ok (a : A)      (* normal return *)
  | BadAlloc        (* [std::make_shared] threw [std::bad_alloc] *)
  | Undefined       (* a null or destroyed node was dereferenced *)
  | OutOfFuel.      (* the step budget of a loop of the model ran out *)
Arguments Ok {A} a.
Arguments BadAlloc {A}.
Arguments Undefined {A}.
Arguments OutOfFuel {A}.

#[global] Instance outcome_ret : MRet outcome := @Ok.
#[global] Instance outcome_bind : MBind outcome := λ A B f m,
  match m with
  | Ok a => f a
  | BadAlloc => BadAlloc
  | Undefined => Undefined
  | OutOfFuel => OutOfFuel
  end.

(** ** Template parameter *)

(** [T] must be default constructible ([T()]) and comparable with [==]. *)
Class DefaultConstructible (T : Type) := value_init : T.

(** [std::size_t] arithmetic of the element count. *)
Definition size_t_modulus : Z := 2 ^ 64.
Definition wrap (z : Z) : Z := z mod size_t_modulus.

(** Nodes are addressed by non-null pointers of the width of [std::size_t].
    Two nodes alive at the same time have different addresses, so at most
    [size_t_modulus - 1] are; allocation fails once that many are alive.
    This is what keeps the [std::size_t] count of a list from wrapping. *)
Definition loc := positive.
Definition max_live_nodes : Z := size_t_modulus - 1.

Section list_model.
Context {T : Type} {T_eq : EqDecision T} {T_init : DefaultConstructible T}.

(** ** Data model *)

Record doubly_linked_node := Node {
  item : T;
  previous : option loc;
  next : option loc
}.

Record doubly_linked_list := List {
  front : option loc;
  back : option loc;
  nodes : Z
}.

(** [doubly_linked_list() = default]: both links null, no nodes. *)
Definition empty_list : doubly_linked_list :=
  {| front := None; back := None; nodes := 0 |}.

(** ** The node store *)

Definition live_nodes (h : gmap loc doubly_linked_node) : nat := base.size h.

(** [std::make_shared< doubly_linked_node >( item )]: a fresh node with both
    links null, or [std::bad_alloc] when no address is left. *)
Definition make_shared (h : gmap loc doubly_linked_node) (x : T)
    : outcome (gmap loc doubly_linked_node * loc) :=
  if decide (Z.of_nat (live_nodes h) < max_live_nodes) then
    let a := fresh (dom h) in
    Ok (<[a := {| item := x; previous := None; next := None |}]> h, a)
  else BadAlloc.

(** [*p] for a node pointer [p]. *)
Definition deref (h : gmap loc doubly_linked_node) (p : option loc)
    : outcome doubly_linked_node :=
  match p with
  | None => Undefined
  | Some a => match h !! a with Some n => Ok n | None => Undefined end
  end.

(** [p->next = v] and [p->previous = v]. *)
Definition set_next (h : gmap loc doubly_linked_node) (p v : option loc)
    : outcome (gmap loc doubly_linked_node) :=
  match p with
  | None => Undefined
  | Some a =>
      n ← deref h p;
      Ok (<[a := {| item := item n; previous := previous n; next := v |}]> h)
  end.

Definition set_previous (h : gmap loc doubly_linked_node) (p v : option loc)
    : outcome (gmap loc doubly_linked_node) :=
  match p with
  | None => Undefined
  | Some a =>
      n ← deref h p;
      Ok (<[a := {| item := item n; previous := v; next := next n |}]> h)
  end.

(** The node [p] loses its last owner and is destroyed. *)
Definition release (h : gmap loc doubly_linked_node) (p : option loc)
    : gmap loc doubly_linked_node :=
  match p with
  | None => h
  | Some a => delete a h
  end.

(** ** Member functions of the list *)

Definition size (this : doubly_linked_list) : Z := nodes this.

Definition empty (this : doubly_linked_list) : bool :=
  bool_decide (front this = None) && bool_decide (back this = None)
  && bool_decide (nodes this = 0).

Definition push_front (h : gmap loc doubly_linked_node)
    (this : doubly_linked_list) (x : T)
    : outcome (gmap loc doubly_linked_node * doubly_linked_list) :=
  '(h, newNode) ← make_shared h x;
  if empty this then
    Ok (h, {| front := Some newNode; back := Some newNode;
              nodes := wrap (nodes this + 1) |})
  else
    h ← set_next h (Some newNode) (back this);
    h ← set_previous h (back this) (Some newNode);
    Ok (h, {| front := front this; back := Some newNode;
              nodes := wrap (nodes this + 1) |}).

Definition push_back (h : gmap loc doubly_linked_node)
    (this : doubly_linked_list) (x : T)
    : outcome (gmap loc doubly_linked_node * doubly_linked_list) :=
  '(h, newNode) ← make_shared h x;
  if empty this then
    Ok (h, {| front := Some newNode; back := Some newNode;
              nodes := wrap (nodes this + 1) |})
  else
    h ← set_previous h (Some newNode) (front this);
    h ← set_next h (front this) (Some newNode);
    Ok (h, {| front := Some newNode; back := back this;
              nodes := wrap (nodes this + 1) |}).

(** [pop_front] works on the [front] link.  [std::move( this->front->previous )]
    leaves that link null; the node that was [front] is then owned by nothing
    once [this->front] is reassigned, and is destroyed. *)
Definition pop_front (h : gmap loc doubly_linked_node)
    (this : doubly_linked_list)
    : outcome (gmap loc doubly_linked_node * doubly_linked_list * T) :=
  if empty this then Ok (h, this, value_init)
  else
    n ← deref h (front this);
    let previousNode := previous n in
    h ← set_previous h (front this) None;
    match previousNode with
    | Some _ =>
        h ← set_next h previousNode None;
        Ok (release h (front this),
            {| front := previousNode; back := back this;
               nodes := wrap (nodes this - 1) |}, item n)
    | None =>
        Ok (release h (front this),
            {| front := None; back := None;
               nodes := wrap (nodes this - 1) |}, item n)
    end.

(** [pop_back] works on the [back] link. *)
Definition pop_back (h : gmap loc doubly_linked_node)
    (this : doubly_linked_list)
    : outcome (gmap loc doubly_linked_node * doubly_linked_list * T) :=
  if empty this then Ok (h, this, value_init)
  else
    n ← deref h (back this);
    let nextNode := next n in
    h ← set_next h (back this) None;
    match nextNode with
    | Some _ =>
        h ← set_previous h nextNode None;
        Ok (release h (back this),
            {| front := front this; back := nextNode;
               nodes := wrap (nodes this - 1) |}, item n)
    | None =>
        Ok (release h (back this),
            {| front := None; back := None;
               nodes := wrap (nodes this - 1) |}, item n)
    end.

Definition blank_pop_front (h : gmap loc doubly_linked_node)
    (this : doubly_linked_list)
    : outcome (gmap loc doubly_linked_node * doubly_linked_list) :=
  if negb (empty this) then
    n ← deref h (front this);
    let previousNode := previous n in
    h ← set_previous h (front this) None;
    match previousNode with
    | Some _ =>
        h ← set_next h previousNode None;
        Ok (release h (front this),
            {| front := previousNode; back := back this;
               nodes := wrap (nodes this - 1) |})
    | None =>
        Ok (release h (front this),
            {| front := None; back := None;
               nodes := wrap (nodes this - 1) |})
    end
  else Ok (h, this).

(** [while ( !this->empty() ) this->blank_pop_front();] *)
Fixpoint clear (fuel : nat) (h : gmap loc doubly_linked_node)
    (this : doubly_linked_list)
    : outcome (gmap loc doubly_linked_node * doubly_linked_list) :=
  if negb (empty this) then
    match fuel with
    | O => OutOfFuel
    | S fuel =>
        '(h, this) ← blank_pop_front h this;
        clear fuel h this
    end
  else Ok (h, this).

Definition peek_front (h : gmap loc doubly_linked_node)
    (this : doubly_linked_list) : outcome T :=
  if empty this then Ok value_init
  else n ← deref h (front this); Ok (item n).

Definition peek_back (h : gmap loc doubly_linked_node)
    (this : doubly_linked_list) : outcome T :=
  if empty this then Ok value_init
  else n ← deref h (back this); Ok (item n).

(** ** Private helpers of the list *)

Definition list_first (this : doubly_linked_list) : option loc := back this.
Definition list_last (this : doubly_linked_list) : option loc := front this.

(** [current->next.get()] and [current->previous.get()]. *)
Definition list_next (h : gmap loc doubly_linked_node)
    (current : option loc) : outcome (option loc) :=
  n ← deref h current; Ok (next n).

Definition list_previous (h : gmap loc doubly_linked_node)
    (current : option loc) : outcome (option loc) :=
  n ← deref h current; Ok (previous n).

(** [equals( node1, node2 )], recursive along [next]. *)
Fixpoint equals (fuel : nat) (h : gmap loc doubly_linked_node)
    (node1 node2 : option loc) : outcome bool :=
  if bool_decide (node1 = None) && bool_decide (node2 = None) then Ok true
  else if bool_decide (node1 = None) || bool_decide (node2 = None)
  then Ok false
  else
    n1 ← deref h node1;
    n2 ← deref h node2;
    if bool_decide (item n1 = item n2) then
      match fuel with
      | O => OutOfFuel
      | S fuel => equals fuel h (next n1) (next n2)
      end
    else Ok false.

Definition op_eq (fuel : nat) (h : gmap loc doubly_linked_node)
    (this rhs : doubly_linked_list) : outcome bool :=
  equals fuel h (back this) (back rhs).

Definition op_ne (fuel : nat) (h : gmap loc doubly_linked_node)
    (this rhs : doubly_linked_list) : outcome bool :=
  b ← op_eq fuel h this rhs; Ok (negb b).

(** ** Construction, assignment and concatenation *)

(** The loop shared by the copy constructor and [operator+=]:
    [while ( node ) { this->push_back( node->item ); node = node->next; }].
    [node->next] is read after the push, from the store the push left. *)
Fixpoint append_loop (fuel : nat) (h : gmap loc doubly_linked_node)
    (this : doubly_linked_list) (node : option loc)
    : outcome (gmap loc doubly_linked_node * doubly_linked_list) :=
  match node with
  | None => Ok (h, this)
  | Some _ =>
      match fuel with
      | O => OutOfFuel
      | S fuel =>
          n ← deref h node;
          '(h, this) ← push_back h this (item n);
          n ← deref h node;
          append_loop fuel h this (next n)
      end
  end.

(** [doubly_linked_list( const doubly_linked_list& other )]. *)
Definition copy_ctor (fuel : nat) (h : gmap loc doubly_linked_node)
    (other : doubly_linked_list)
    : outcome (gmap loc doubly_linked_node * doubly_linked_list) :=
  append_loop fuel h empty_list (back other).

(** [doubly_linked_list( doubly_linked_list&& other )]: the new list and what
    is left of [other]; a moved-from [std::shared_ptr] is null. *)
Definition move_ctor (other : doubly_linked_list)
    : doubly_linked_list * doubly_linked_list :=
  ({| front := front other; back := back other; nodes := nodes other |},
   {| front := None; back := None; nodes := 0 |}).

(** [~doubly_linked_list() = default] drops the two end links.  A single node
    is owned by these two links alone and is destroyed; in a longer chain
    every node is still owned by a neighbour and stays in the store. *)
Definition destructor (h : gmap loc doubly_linked_node)
    (this : doubly_linked_list) : gmap loc doubly_linked_node :=
  if bool_decide (front this = back this) then release h (front this) else h.

(** [swap( first, second )]. *)
Definition swap (first second : doubly_linked_list)
    : doubly_linked_list * doubly_linked_list :=
  ({| front := front second; back := back second; nodes := nodes second |},
   {| front := front first; back := back first; nodes := nodes first |}).

(** [operator=( doubly_linked_list rhs )] is given no definition.  Its body
    is [this->swap( *this, rhs ); return *this;]: a class member access, and
    the class declares [swap] only as a [friend], a function of the
    enclosing namespace and not a member.  The lookup of [swap] in the class
    finds nothing, so this member of the class template cannot be
    instantiated: a program that assigns one list to another does not
    compile, whether the right-hand side is copied or moved. *)

(** Member [operator+=]: [rhs] is read (its emptiness and its [back] link)
    before [*this] is first written, so the handle of [rhs] is passed as it
    is on entry, also when it is [*this] itself. *)
Definition op_plus_assign (fuel : nat) (h : gmap loc doubly_linked_node)
    (this rhs : doubly_linked_list)
    : outcome (gmap loc doubly_linked_node * doubly_linked_list) :=
  if negb (empty rhs) then append_loop fuel h this (back rhs)
  else Ok (h, this).

(** Member [operator+]: [return *this += rhs;]. *)
Definition op_plus (fuel : nat) (h : gmap loc doubly_linked_node)
    (this rhs : doubly_linked_list)
    : outcome (gmap loc doubly_linked_node * doubly_linked_list) :=
  op_plus_assign fuel h this rhs.

(** Free [operator+]: a local copy of [lhs], [+=] on it, and the returned
    object copy-constructed from the reference [+=] gives back; the local is
    destroyed on return. *)
Definition free_op_plus (fuel : nat) (h : gmap loc doubly_linked_node)
    (lhs rhs : doubly_linked_list)
    : outcome (gmap loc doubly_linked_node * doubly_linked_list) :=
  '(h, result) ← copy_ctor fuel h lhs;
  '(h, result) ← op_plus_assign fuel h result rhs;
  '(h, returned) ← copy_ctor fuel h result;
  Ok (destructor h result, returned).

(** ** Iterators *)

(** An iterator holds a raw node pointer; the forward and the reverse
    iterator differ in the link [++] and [--] follow. *)
Definition iterator_incr (h : gmap loc doubly_linked_node)
    (this : option loc) : outcome (option loc) :=
  n ← deref h this; Ok (next n).

Definition iterator_decr (h : gmap loc doubly_linked_node)
    (this : option loc) : outcome (option loc) :=
  n ← deref h this; Ok (previous n).

Definition iterator_star (h : gmap loc doubly_linked_node)
    (this : option loc) : outcome T :=
  n ← deref h this; Ok (item n).

Definition iterator_eq (h : gmap loc doubly_linked_node)
    (this it : option loc) : outcome bool :=
  if bool_decide (this = None) && bool_decide (it = None) then Ok true
  else if bool_decide (it = None) then Ok false
  else
    n1 ← deref h this;
    n2 ← deref h it;
    Ok (bool_decide (item n1 = item n2)).

Definition iterator_ne (h : gmap loc doubly_linked_node)
    (this it : option loc) : outcome bool :=
  b ← iterator_eq h this it; Ok (negb b).

Definition reverse_iterator_incr (h : gmap loc doubly_linked_node)
    (this : option loc) : outcome (option loc) :=
  n ← deref h this; Ok (previous n).

Definition reverse_iterator_decr (h : gmap loc doubly_linked_node)
    (this : option loc) : outcome (option loc) :=
  n ← deref h this; Ok (next n).

Definition reverse_iterator_star (h : gmap loc doubly_linked_node)
    (this : option loc) : outcome T :=
  n ← deref h this; Ok (item n).

Definition reverse_iterator_eq (h : gmap loc doubly_linked_node)
    (this it : option loc) : outcome bool :=
  if bool_decide (this = None) && bool_decide (it = None) then Ok true
  else if bool_decide (it = None) then Ok false
  else
    n1 ← deref h this;
    n2 ← deref h it;
    Ok (bool_decide (item n1 = item n2)).

Definition reverse_iterator_ne (h : gmap loc doubly_linked_node)
    (this it : option loc) : outcome bool :=
  b ← reverse_iterator_eq h this it; Ok (negb b).

Definition begin (this : doubly_linked_list) : option loc :=
  list_first this.

Definition end_ (h : gmap loc doubly_linked_node)
    (this : doubly_linked_list) : outcome (option loc) :=
  list_next h (list_last this).

Definition rbegin (this : doubly_linked_list) : option loc :=
  list_last this.

Definition rend (h : gmap loc doubly_linked_node)
    (this : doubly_linked_list) : outcome (option loc) :=
  list_previous h (list_first this).

(** The loop of a caller over a range,
    [for ( ; it != last; ++it ) visit( *it );], collecting what it visits. *)
Fixpoint visit_range (fuel : nat) (h : gmap loc doubly_linked_node)
    (it last : option loc) : outcome (list T) :=
  more ← iterator_ne h it last;
  if more : bool then
    match fuel with
    | O => OutOfFuel
    | S fuel =>
        x ← iterator_star h it;
        it ← iterator_incr h it;
        xs ← visit_range fuel h it last;
        Ok (x :: xs)
    end
  else Ok [].

Fixpoint visit_reverse_range (fuel : nat) (h : gmap loc doubly_linked_node)
    (it last : option loc) : outcome (list T) :=
  more ← reverse_iterator_ne h it last;
  if more : bool then
    match fuel with
    | O => OutOfFuel
    | S fuel =>
        x ← reverse_iterator_star h it;
        it ← reverse_iterator_incr h it;
        xs ← visit_reverse_range fuel h it last;
        Ok (x :: xs)
    end
  else Ok [].

(** Forward iteration from [begin()] to [end()], and reverse iteration from
    [rbegin()] to [rend()]. *)
Definition forward_iteration (fuel : nat) (h : gmap loc doubly_linked_node)
    (this : doubly_linked_list) : outcome (list T) :=
  last ← end_ h this;
  visit_range fuel h (begin this) last.

Definition reverse_iteration (fuel : nat) (h : gmap loc doubly_linked_node)
    (this : doubly_linked_list) : outcome (list T) :=
  last ← rend h this;
  visit_reverse_range fuel h (rbegin this) last.

(** ** Callers' loops used by the tests and the specification *)

(** [std::copy( first, last, std::back_inserter( list ) )] and the same with
    [std::front_inserter]: one push per element, in order. *)
Fixpoint push_back_all (h : gmap loc doubly_linked_node)
    (this : doubly_linked_list) (xs : list T)
    : outcome (gmap loc doubly_linked_node * doubly_linked_list) :=
  match xs with
  | [] => Ok (h, this)
  | x :: xs => '(h, this) ← push_back h this x; push_back_all h this xs
  end.

Fixpoint push_front_all (h : gmap loc doubly_linked_node)
    (this : doubly_linked_list) (xs : list T)
    : outcome (gmap loc doubly_linked_node * doubly_linked_list) :=
  match xs with
  | [] => Ok (h, this)
  | x :: xs => '(h, this) ← push_front h this x; push_front_all h this xs
  end.

(** [n] pops in a row, collecting the returned items in the order of the
    calls. *)
Fixpoint pop_front_n (n : nat) (h : gmap loc doubly_linked_node)
    (this : doubly_linked_list)
    : outcome (gmap loc doubly_linked_node * doubly_linked_list * list T) :=
  match n with
  | O => Ok (h, this, [])
  | S n =>
      '(h, this, x) ← pop_front h this;
      '(h, this, xs) ← pop_front_n n h this;
      Ok (h, this, x :: xs)
  end.

Fixpoint pop_back_n (n : nat) (h : gmap loc doubly_linked_node)
    (this : doubly_linked_list)
    : outcome (gmap loc doubly_linked_node * doubly_linked_list * list T) :=
  match n with
  | O => Ok (h, this, [])
  | S n =>
      '(h, this, x) ← pop_back h this;
      '(h, this, xs) ← pop_back_n n h this;
      Ok (h, this, x :: xs)
  end.

(** A sequence of pushes at either end. *)
Inductive push_op : Type :=
  | PushFront (x : T)
  | PushBack (x : T).

Fixpoint run_pushes (h : gmap loc doubly_linked_node)
    (this : doubly_linked_list) (ops : list push_op)
    : outcome (gmap loc doubly_linked_node * doubly_linked_list) :=
  match ops with
  | [] => Ok (h, this)
  | PushFront x :: ops => '(h, this) ← push_front h this x; run_pushes h this ops
  | PushBack x :: ops => '(h, this) ← push_back h this x; run_pushes h this ops
  end.

(** The sequence such pushes build from [xs]. *)
Definition apply_pushes (xs : list T) (ops : list push_op) : list T :=
  foldl (λ acc op, match op with
                   | PushFront x => x :: acc
                   | PushBack x => acc ++ [x]
                   end) xs ops.

(** ** Representation of a list in the store *)

(** The chain of a list is the sequence of its cells, each an address with the
    item stored there, in the order of the [next] links. *)
Definition hd_loc (cs : list (loc * T)) (q : option loc) : option loc :=
  match cs with
  | [] => q
  | c :: _ => Some c.1
  end.

Definition last_loc (p : option loc) (cs : list (loc * T)) : option loc :=
  match last cs with
  | None => p
  | Some c => Some c.1
  end.

(** [dseg h p cs q]: the cells [cs] are linked in [h] in both directions,
    the first one having [p] for [previous] and the last one [q] for
    [next]. *)
Fixpoint dseg (h : gmap loc doubly_linked_node) (p : option loc)
    (cs : list (loc * T)) (q : option loc) : Prop :=
  match cs with
  | [] => True
  | c :: cs' =>
      h !! c.1 = Some {| item := c.2; previous := p; next := hd_loc cs' q |}
      ∧ dseg h (Some c.1) cs' q
  end.

(** [rep h this cs]: the handle [this] owns the chain [cs], which runs from
    [this->back] (the node [first()] returns) along [next] to [this->front]
    (the node [last()] returns). *)
Definition rep (h : gmap loc doubly_linked_node) (this : doubly_linked_list)
    (cs : list (loc * T)) : Prop :=
  NoDup cs.*1
  ∧ dseg h None cs None
  ∧ back this = hd_loc cs None
  ∧ front this = last_loc None cs
  ∧ nodes this = Z.of_nat (length cs)
  ∧ Z.of_nat (length cs) < size_t_modulus.

(** The sequence a list holds, first to last. *)
Definition holds (h : gmap loc doubly_linked_node) (this : doubly_linked_list)
    (xs : list T) : Prop :=
  ∃ cs, rep h this cs ∧ cs.*2 = xs.

(** Two lists that share no node. *)
Definition separate (cs1 cs2 : list (loc * T)) : Prop :=
  ∀ a, a ∈ cs1.*1 → a ∈ cs2.*1 → False.

(** Two handles whose chains share no node. *)
Definition apart (h : gmap loc doubly_linked_node)
    (this other : doubly_linked_list) : Prop :=
  ∀ cs1 cs2, rep h this cs1 → rep h other cs2 → separate cs1 cs2.

(** ** The invariants listed by the specification *)

(** The nodes met walking from a node along [next] until the null link. *)
Inductive next_path (h : gmap loc doubly_linked_node)
    : option loc → list loc → Prop :=
  | next_path_null : next_path h None []
  | next_path_node a n ls :
      h !! a = Some n → next_path h (next n) ls →
      next_path h (Some a) (a :: ls).

Record invariants (h : gmap loc doubly_linked_node)
    (this : doubly_linked_list) : Prop := {
  (* head absent iff tail absent iff count 0, and [empty()] agrees *)
  inv_head_tail : list_first this = None ↔ list_last this = None;
  inv_tail_count : list_last this = None ↔ size this = 0;
  inv_empty : empty this = true ↔ size this = 0;
  (* the count is the number of nodes on the walk from head to tail *)
  inv_count : ∃ ls, next_path h (list_first this) ls
                    ∧ last ls = list_last this
                    ∧ size this = Z.of_nat (length ls)
  (* node.next.previous == node and node.previous.next == node *)
                    ∧ (∀ a n b, a ∈ ls → h !! a = Some n → next n = Some b →
                         ∃ nb, h !! b = Some nb ∧ previous nb = Some a)
                    ∧ (∀ a n b, a ∈ ls → h !! a = Some n → previous n = Some b →
                         ∃ nb, h !! b = Some nb ∧ next nb = Some a);
  (* a one-element list *)
  inv_single : size this = 1 →
               ∃ a n, list_first this = Some a ∧ list_last this = Some a
                      ∧ h !! a = Some n
                      ∧ previous n = None ∧ next n = None
}.

(** The listed invariants together with the chain that carries them: the
    form in which they are kept by the member functions. *)
Definition well_formed (h : gmap loc doubly_linked_node)
    (this : doubly_linked_list) : Prop :=
  invariants h this ∧ ∃ cs, rep h this cs.

End list_model.

Arguments doubly_linked_node : clear implicits.
Arguments push_op : clear implicits.

(** The tests instantiate the list at [std::int32_t]; items are only stored,
    copied and compared, and [value_type()] is [0]. *)
#[global] Instance value_type_init : DefaultConstructible Z := 0.

(** ** Scenarios of the specification and of the tests *)

(** [push_back(1); push_back(2); push_back(3);] then [pop_front()] and
    [pop_back()], iterating forward before and after each pop. *)
Definition scenario_push_back_then_pops
    : outcome (list Z * Z * list Z * Z * list Z * Z) :=
  '(h, l) ← push_back_all ∅ empty_list [1; 2; 3];
  before ← forward_iteration 3 h l;
  '(h, l, popped_front) ← pop_front h l;
  after_pop_front ← forward_iteration 3 h l;
  '(h, l, popped_back) ← pop_back h l;
  after_pop_back ← forward_iteration 3 h l;
  Ok (before, popped_front, after_pop_front, popped_back, after_pop_back,
      size l).

(** The tests [push_front_pop_back] and [push_front_pop_front]: the values
    are pushed with [push_front] and popped as many times. *)
Definition push_front_then_pop_back (values : list Z) : outcome (list Z) :=
  '(h, l) ← push_front_all ∅ empty_list values;
  '(_, _, popped) ← pop_back_n (length values) h l;
  Ok popped.

Definition push_front_then_pop_front (values : list Z) : outcome (list Z) :=
  '(h, l) ← push_front_all ∅ empty_list values;
  '(_, _, popped) ← pop_front_n (length values) h l;
  Ok popped.

(** [push_back(1); push_back(2); push_back(3);] then the first element of
    the forward iteration and the two peeks; then [push_front(0)] and the
    peeks again; then [push_back(4)] and the peeks again. *)
Definition scenario_peeks : outcome (Z * Z * Z * (Z * Z) * (Z * Z)) :=
  '(h, l) ← push_back_all ∅ empty_list [1; 2; 3];
  first ← iterator_star h (begin l);
  pf ← peek_front h l;
  pb ← peek_back h l;
  '(h, l) ← push_front h l 0;
  pf0 ← peek_front h l;
  pb0 ← peek_back h l;
  '(h, l) ← push_back h l 4;
  pf4 ← peek_front h l;
  pb4 ← peek_back h l;
  Ok (first, pf, pb, (pf0, pb0), (pf4, pb4)).

(** A store with the list [a] of items 1, 2 and the list [b] of item 3. *)
Definition store_ab : gmap loc (doubly_linked_node Z) :=
  <[1%positive := {| item := 1; previous := None; next := Some 2%positive |}]>
  (<[2%positive := {| item := 2; previous := Some 1%positive; next := None |}]>
  (<[3%positive := {| item := 3; previous := None; next := None |}]> ∅)).

Definition list_a : doubly_linked_list :=
  {| front := Some 2%positive; back := Some 1%positive; nodes := 2 |}.

Definition list_b : doubly_linked_list :=
  {| front := Some 3%positive; back := Some 3%positive; nodes := 1 |}.

Definition cells_a : list (loc * Z) := [(1%positive, 1); (2%positive, 2)].
Definition cells_b : list (loc * Z) := [(3%positive, 3)].

(** ** Further members of the iterators, and what their callers observe *)

Section iterator_model.
Context {T : Type} {T_eq : EqDecision T}.

(** [it++] and [it--]: a copy of the iterator is taken, the iterator is
    stepped, and the copy is returned.  The pair is the returned copy and the
    iterator after the call. *)
Definition iterator_post_incr (h : gmap loc (doubly_linked_node T))
    (this : option loc) : outcome (option loc * option loc) :=
  let iterator := this in
  this ← iterator_incr h this;
  Ok (iterator, this).

Definition iterator_post_decr (h : gmap loc (doubly_linked_node T))
    (this : option loc) : outcome (option loc * option loc) :=
  let iterator := this in
  this ← iterator_decr h this;
  Ok (iterator, this).

Definition reverse_iterator_post_incr (h : gmap loc (doubly_linked_node T))
    (this : option loc) : outcome (option loc * option loc) :=
  let iterator := this in
  this ← reverse_iterator_incr h this;
  Ok (iterator, this).

Definition reverse_iterator_post_decr (h : gmap loc (doubly_linked_node T))
    (this : option loc) : outcome (option loc * option loc) :=
  let iterator := this in
  this ← reverse_iterator_decr h this;
  Ok (iterator, this).

(** [*it = x]: [operator*] returns a reference to [this->node->item], which
    the caller assigns to. *)
Definition iterator_assign (h : gmap loc (doubly_linked_node T))
    (this : option loc) (x : T) : outcome (gmap loc (doubly_linked_node T)) :=
  match this with
  | None => Undefined
  | Some a =>
      n ← deref h this;
      Ok (<[a := {| item := x; previous := previous n; next := next n |}]> h)
  end.

(** The items of [xs] before the first one equal to [y], when there is
    one. *)
Fixpoint items_before (y : T) (xs : list T) : option (list T) :=
  match xs with
  | [] => None
  | x :: xs =>
      if bool_decide (x = y) then Some []
      else cons x <$> items_before y xs
  end.

(** The node at [b] holds a link, [next] or [previous], to the node at [a]:
    one of the [std::shared_ptr] that keep [a] alive. *)
Definition linked_from (h : gmap loc (doubly_linked_node T)) (b a : loc)
    : Prop :=
  ∃ n, h !! b = Some n ∧ (next n = Some a ∨ previous n = Some a).

End iterator_model.

(** * Properties of the representation *)

Section representation.
Context {T : Type} {T_eq : EqDecision T} {T_init : DefaultConstructible T}.
Implicit Types (h : gmap loc (doubly_linked_node T)).
Implicit Types (cs suf new : list (loc * T)) (p q : option loc).
Implicit Types (this rhs lhs other : doubly_linked_list).
Implicit Types (xs ys : list T) (ops : list (push_op T)) (op : push_op T).

Lemma hd_loc_app cs1 cs2 q :
  hd_loc (cs1 ++ cs2) q = hd_loc cs1 (hd_loc cs2 q).
Proof. by destruct cs1. Qed.

Lemma last_loc_nil p : last_loc p ([] : list (loc * T)) = p.
Proof. done. Qed.

Lemma last_loc_snoc p cs c : last_loc p (cs ++ [c]) = Some c.1.
Proof. unfold last_loc. by rewrite last_snoc. Qed.

Lemma last_loc_cons p c cs : last_loc p (c :: cs) = last_loc (Some c.1) cs.
Proof.
  unfold last_loc. rewrite last_cons. by destruct (last cs).
Qed.

Lemma last_loc_app p cs1 cs2 :
  last_loc p (cs1 ++ cs2) = last_loc (last_loc p cs1) cs2.
Proof.
  unfold last_loc. rewrite last_app. by destruct (last cs2).
Qed.

Lemma dseg_frame h h' p cs q :
  (∀ a, a ∈ cs.*1 → h' !! a = h !! a) →
  dseg h p cs q → dseg h' p cs q.
Proof.
  revert p. induction cs as [|c cs IH]; intros p Hsame; [done|].
  simpl. intros [Hc Hrest]. split.
  - rewrite Hsame; [done|]. rewrite fmap_cons. apply list_elem_of_here.
  - apply IH; [|done]. intros a Ha. apply Hsame.
    rewrite fmap_cons. by apply list_elem_of_further.
Qed.

Lemma dseg_app h p cs1 cs2 q :
  dseg h p (cs1 ++ cs2) q ↔
  dseg h p cs1 (hd_loc cs2 q) ∧ dseg h (last_loc p cs1) cs2 q.
Proof.
  revert p. induction cs1 as [|c cs1 IH]; intros p.
  - simpl. rewrite last_loc_nil. tauto.
  - simpl. rewrite IH, hd_loc_app, last_loc_cons. tauto.
Qed.

Lemma dseg_is_Some h p cs q a :
  dseg h p cs q → a ∈ cs.*1 → is_Some (h !! a).
Proof.
  revert p. induction cs as [|c cs IH]; intros p; simpl.
  - intros _ Ha. by apply elem_of_nil in Ha.
  - intros [Hc Hrest] Ha. apply elem_of_cons in Ha as [->|Ha]; eauto.
Qed.

(** A chain without repetition has no more cells than the store has nodes. *)
Lemma dseg_length_le h p cs q :
  NoDup cs.*1 → dseg h p cs q → (length cs ≤ live_nodes h)%nat.
Proof.
  intros Hnd Hseg. unfold live_nodes.
  rewrite <-(length_fmap fst cs), <-size_dom.
  unfold base.size at 1, set_size. simpl.
  apply submseteq_length, NoDup_submseteq; [done|].
  intros a Ha. apply elem_of_elements, elem_of_dom.
  by eapply dseg_is_Some.
Qed.


Lemma rep_nil h : rep h empty_list [].
Proof.
  unfold rep. simpl. split_and!; try done. apply NoDup_nil_2.
Qed.

Lemma rep_empty h this cs :
  rep h this cs → empty this = bool_decide (cs = []).
Proof.
  intros (_ & _ & Hb & Hf & Hn & _). unfold empty. rewrite Hb, Hf, Hn.
  destruct cs as [|c cs]; [done|].
  rewrite (bool_decide_eq_false_2 (c :: cs = [])) by done.
  rewrite (bool_decide_eq_false_2 (hd_loc (c :: cs) None = None)) by done.
  by rewrite andb_false_r.
Qed.

Lemma wrap_small z : 0 ≤ z < size_t_modulus → wrap z = z.
Proof. intros ?. unfold wrap. by apply Z.mod_small. Qed.

Lemma lookup_fresh_None h : h !! fresh (dom h) = None.
Proof. apply not_elem_of_dom, is_fresh. Qed.

(** [push_back] links a new cell after the one [front] points to. *)
Lemma push_back_rep h this cs x :
  rep h this cs →
  Z.of_nat (live_nodes h) < max_live_nodes →
  ∃ h' this' a,
    push_back h this x = Ok (h', this')
    ∧ h !! a = None
    ∧ rep h' this' (cs ++ [(a, x)])
    ∧ (∀ b, b ≠ a → last_loc None cs ≠ Some b → h' !! b = h !! b)
    ∧ live_nodes h' = S (live_nodes h).
Proof.
  intros Hrep Hroom.
  pose proof (rep_empty _ _ _ Hrep) as Hempty.
  destruct Hrep as (Hnd & Hseg & Hb & Hf & Hn & Hlt).
  pose proof (dseg_length_le _ _ _ _ Hnd Hseg) as Hle.
  pose proof (lookup_fresh_None h) as Hfresh.
  set (a := fresh (dom h)) in *.
  assert (Hnotin : a ∉ cs.*1).
  { intros Ha. destruct (dseg_is_Some _ _ _ _ _ Hseg Ha) as [n Hn'].
    congruence. }
  unfold push_back, make_shared. rewrite decide_True by done. fold a.
  simpl. rewrite Hempty.
  destruct cs as [|c0 cs0 _] using rev_ind.
  - rewrite bool_decide_eq_true_2 by done.
    eexists _, _, a. split_and!; [done|done| |..].
    + unfold rep. simpl. split_and!; try done.
      * apply NoDup_singleton.
      * by rewrite lookup_insert_eq.
      * rewrite Hn. simpl. by rewrite wrap_small.
    + intros b Hb' _. by rewrite lookup_insert_ne.
    + unfold live_nodes. by rewrite map_size_insert_None.
  - rewrite bool_decide_eq_false_2 by (by destruct cs0).
    rewrite last_loc_snoc in Hf. rewrite Hf.
    apply dseg_app in Hseg as [Hseg0 Hc0]. simpl in Hc0.
    destruct Hc0 as [Hc0 _].
    rewrite fmap_app in Hnd, Hnotin. simpl in Hnd, Hnotin.
    apply NoDup_app in Hnd as (Hnd0 & Hsep & _).
    assert (Hne : c0.1 ≠ a) by (intros <-; congruence).
    unfold set_previous, set_next, deref. simpl.
    rewrite lookup_insert_eq. simpl.
    rewrite lookup_insert_ne by done. rewrite lookup_insert_ne by done.
    rewrite Hc0. simpl. rewrite insert_insert_eq.
    eexists _, _, a. split_and!; [done|done| |..].
    + unfold rep. simpl. split_and!.
      * rewrite !fmap_app. simpl. apply NoDup_app. split_and!.
        -- apply NoDup_app. split_and!; [done|done|apply NoDup_singleton].
        -- intros b Hb' ->%list_elem_of_singleton. done.
        -- apply NoDup_singleton.
      * apply dseg_app. rewrite last_loc_snoc. simpl. split.
        -- apply dseg_app. simpl. split_and!; [|by rewrite lookup_insert_eq|done].
           eapply dseg_frame; [|exact Hseg0].
           intros b Hb'. rewrite !lookup_insert_ne; [done|..].
           ++ intros <-. apply Hnotin, elem_of_app. by left.
           ++ intros <-. eapply Hsep; [done|]. apply list_elem_of_here.
        -- rewrite lookup_insert_ne, lookup_insert_eq by done. done.
      * rewrite Hb. by rewrite !hd_loc_app.
      * by rewrite last_loc_snoc.
      * rewrite Hn, !length_app. simpl.
        rewrite length_app in Hle, Hlt. simpl in Hle, Hlt.
        unfold max_live_nodes in Hroom. rewrite wrap_small; lia.
      * rewrite !length_app. simpl.
        rewrite length_app in Hle. simpl in Hle.
        unfold max_live_nodes in Hroom. lia.
    + intros b Hb1 Hb2. rewrite last_loc_snoc in Hb2.
      rewrite !lookup_insert_ne; [done|congruence..].
    + unfold live_nodes.
      rewrite map_size_insert_Some.
      * by rewrite map_size_insert_None.
      * rewrite lookup_insert_ne by done. eauto.
Qed.


(** [push_front] links a new cell before the one [back] points to. *)
Lemma push_front_rep h this cs x :
  rep h this cs →
  Z.of_nat (live_nodes h) < max_live_nodes →
  ∃ h' this' a,
    push_front h this x = Ok (h', this')
    ∧ h !! a = None
    ∧ rep h' this' ((a, x) :: cs)
    ∧ (∀ b, b ≠ a → hd_loc cs None ≠ Some b → h' !! b = h !! b)
    ∧ live_nodes h' = S (live_nodes h).
Proof.
  intros Hrep Hroom.
  pose proof (rep_empty _ _ _ Hrep) as Hempty.
  destruct Hrep as (Hnd & Hseg & Hb & Hf & Hn & Hlt).
  pose proof (dseg_length_le _ _ _ _ Hnd Hseg) as Hle.
  pose proof (lookup_fresh_None h) as Hfresh.
  set (a := fresh (dom h)) in *.
  assert (Hnotin : a ∉ cs.*1).
  { intros Ha. destruct (dseg_is_Some _ _ _ _ _ Hseg Ha) as [n Hn'].
    congruence. }
  unfold push_front, make_shared. rewrite decide_True by done. fold a.
  simpl. rewrite Hempty.
  destruct cs as [|c0 cs0].
  - rewrite bool_decide_eq_true_2 by done.
    eexists _, _, a. split_and!; [done|done| |..].
    + unfold rep. simpl. split_and!; try done.
      * apply NoDup_singleton.
      * by rewrite lookup_insert_eq.
      * rewrite Hn. simpl. by rewrite wrap_small.
    + intros b Hb' _. by rewrite lookup_insert_ne.
    + unfold live_nodes. by rewrite map_size_insert_None.
  - rewrite bool_decide_eq_false_2 by done.
    simpl in Hb. rewrite Hb.
    destruct Hseg as [Hc0 Hseg0].
    rewrite fmap_cons in Hnd, Hnotin.
    apply NoDup_cons in Hnd as [Hc0notin Hnd0].
    apply not_elem_of_cons in Hnotin as [Hne Hnotin].
    unfold set_previous, set_next, deref. simpl.
    rewrite lookup_insert_eq. simpl.
    rewrite lookup_insert_ne by done. rewrite lookup_insert_ne by done.
    rewrite Hc0. simpl. rewrite insert_insert_eq.
    eexists _, _, a. split_and!; [done|done| |..].
    + unfold rep. split_and!.
      * rewrite !fmap_cons. simpl. apply NoDup_cons. split.
        -- apply not_elem_of_cons. done.
        -- apply NoDup_cons. done.
      * simpl. split_and!.
        -- rewrite lookup_insert_ne, lookup_insert_eq by done. done.
        -- by rewrite lookup_insert_eq.
        -- eapply dseg_frame; [|exact Hseg0].
           intros b Hb'. rewrite !lookup_insert_ne; [done|..].
           ++ intros <-. done.
           ++ intros <-. done.
      * done.
      * simpl. rewrite Hf. by rewrite !last_loc_cons.
      * simpl nodes. rewrite Hn, !length_cons.
        rewrite length_cons in Hle, Hlt.
        unfold max_live_nodes in Hroom. rewrite wrap_small; lia.
      * rewrite !length_cons. rewrite length_cons in Hle.
        unfold max_live_nodes in Hroom. lia.
    + intros b Hb1 Hb2. simpl in Hb2.
      rewrite !lookup_insert_ne; [done|congruence..].
    + unfold live_nodes.
      rewrite map_size_insert_Some.
      * by rewrite map_size_insert_None.
      * rewrite lookup_insert_ne by done. eauto.
Qed.


(** [pop_front] unlinks the cell [front] points to: the last of the chain. *)
Lemma pop_front_rep h this cs c :
  rep h this (cs ++ [c]) →
  ∃ h' this',
    pop_front h this = Ok (h', this', c.2)
    ∧ rep h' this' cs
    ∧ (∀ b, b ≠ c.1 → last_loc None cs ≠ Some b → h' !! b = h !! b)
    ∧ h' !! c.1 = None.
Proof.
  intros Hrep.
  pose proof (rep_empty _ _ _ Hrep) as Hempty.
  destruct Hrep as (Hnd & Hseg & Hb & Hf & Hn & Hlt).
  rewrite bool_decide_eq_false_2 in Hempty by (by destruct cs).
  rewrite last_loc_snoc in Hf. rewrite length_app in Hn, Hlt.
  simpl in Hn, Hlt.
  apply dseg_app in Hseg as [Hseg Hc]. simpl in Hc. destruct Hc as [Hc _].
  rewrite fmap_app in Hnd. simpl in Hnd.
  apply NoDup_app in Hnd as (Hnd & Hsep & _).
  unfold pop_front. rewrite Hempty, Hf.
  unfold set_previous, set_next, deref. simpl. rewrite Hc. simpl.
  destruct cs as [|c1 cs1 _] using rev_ind.
  - simpl. eexists _, _. split_and!; [done| |..].
    + unfold rep. simpl. split_and!; try done.
      rewrite Hn. simpl. by rewrite wrap_small.
    + intros b Hb1 _. rewrite lookup_delete_ne, lookup_insert_ne; done.
    + by rewrite lookup_delete_eq.
  - rewrite last_loc_snoc. simpl.
    apply dseg_app in Hseg as [Hseg Hc1]. simpl in Hc1.
    destruct Hc1 as [Hc1 _].
    rewrite fmap_app in Hnd, Hsep. simpl in Hnd, Hsep.
    apply NoDup_app in Hnd as (Hnd & Hsep1 & _).
    assert (Hne : c1.1 ≠ c.1).
    { intros Heq. eapply (Hsep c1.1).
      - apply elem_of_app. right. apply list_elem_of_here.
      - rewrite Heq. apply list_elem_of_here. }
    rewrite lookup_insert_ne by done. rewrite Hc1. simpl.
    eexists _, _. split_and!; [done| |..].
    + unfold rep. simpl. split_and!.
      * rewrite fmap_app. simpl. apply NoDup_app.
        split_and!; [done|done|apply NoDup_singleton].
      * apply dseg_app. simpl. split_and!; [| |done].
        -- eapply dseg_frame; [|exact Hseg].
           intros b Hb'. rewrite lookup_delete_ne, !lookup_insert_ne; [done|..].
           ++ intros <-. eapply (Hsep c.1).
              ** apply elem_of_app. by left.
              ** apply list_elem_of_here.
           ++ intros <-. eapply Hsep1; [done|]. apply list_elem_of_here.
           ++ intros <-. eapply (Hsep c.1).
              ** apply elem_of_app. by left.
              ** apply list_elem_of_here.
        -- rewrite lookup_delete_ne, lookup_insert_eq by done. done.
      * rewrite Hb. by rewrite !hd_loc_app.
      * by rewrite last_loc_snoc.
      * rewrite Hn. rewrite wrap_small; lia.
      * lia.
    + intros b Hb1 Hb2.
      rewrite lookup_delete_ne, !lookup_insert_ne; [done|congruence..].
    + by rewrite lookup_delete_eq.
Qed.

(** [pop_back] unlinks the cell [back] points to: the first of the chain. *)
Lemma pop_back_rep h this c cs :
  rep h this (c :: cs) →
  ∃ h' this',
    pop_back h this = Ok (h', this', c.2)
    ∧ rep h' this' cs
    ∧ (∀ b, b ≠ c.1 → hd_loc cs None ≠ Some b → h' !! b = h !! b)
    ∧ h' !! c.1 = None.
Proof.
  intros Hrep.
  pose proof (rep_empty _ _ _ Hrep) as Hempty.
  destruct Hrep as (Hnd & Hseg & Hb & Hf & Hn & Hlt).
  rewrite bool_decide_eq_false_2 in Hempty by done.
  simpl in Hb. rewrite length_cons in Hn, Hlt.
  destruct Hseg as [Hc Hseg].
  rewrite fmap_cons in Hnd. apply NoDup_cons in Hnd as [Hnotin Hnd].
  unfold pop_back. rewrite Hempty, Hb.
  unfold set_previous, set_next, deref. simpl. rewrite Hc. simpl.
  destruct cs as [|c1 cs1].
  - simpl. eexists _, _. split_and!; [done| |..].
    + unfold rep. simpl. split_and!; try done.
      rewrite Hn. simpl. by rewrite wrap_small.
    + intros b Hb1 _. rewrite lookup_delete_ne, lookup_insert_ne; done.
    + by rewrite lookup_delete_eq.
  - simpl. destruct Hseg as [Hc1 Hseg].
    rewrite fmap_cons in Hnd, Hnotin.
    apply NoDup_cons in Hnd as [Hnotin1 Hnd].
    apply not_elem_of_cons in Hnotin as [Hne Hnotin].
    rewrite lookup_insert_ne by done. rewrite Hc1. simpl.
    eexists _, _. split_and!; [done| |..].
    + unfold rep. split_and!.
      * rewrite fmap_cons. by apply NoDup_cons.
      * simpl. split.
        -- rewrite lookup_delete_ne, lookup_insert_eq by done. done.
        -- eapply dseg_frame; [|exact Hseg].
           intros b Hb'.
           rewrite lookup_delete_ne, !lookup_insert_ne; [done|..];
             by intros <-.
      * done.
      * simpl. rewrite Hf. by rewrite !last_loc_cons.
      * simpl nodes. rewrite Hn, length_cons. rewrite length_cons in Hlt.
        rewrite wrap_small; lia.
      * rewrite length_cons in Hlt |- *. lia.
    + intros b Hb1 Hb2. simpl in Hb2.
      rewrite lookup_delete_ne, !lookup_insert_ne; [done|congruence..].
    + by rewrite lookup_delete_eq.
Qed.


Lemma hd_loc_elem_of cs a : hd_loc cs None = Some a → a ∈ cs.*1.
Proof.
  destruct cs as [|c cs]; [done|]. simpl. intros [= <-].
  apply list_elem_of_here.
Qed.

Lemma last_loc_elem_of cs a : last_loc None cs = Some a → a ∈ cs.*1.
Proof.
  destruct cs as [|c cs _] using rev_ind; [done|].
  rewrite last_loc_snoc. intros [= <-].
  rewrite fmap_app. apply elem_of_app. right. apply list_elem_of_here.
Qed.

(** A list is unaffected by writes to nodes that are not its own. *)
Lemma rep_frame h h' this cs :
  (∀ a, a ∈ cs.*1 → h' !! a = h !! a) →
  rep h this cs → rep h' this cs.
Proof.
  intros Hsame (Hnd & Hseg & Hrest). split; [done|]. split; [|done].
  by eapply dseg_frame.
Qed.

Lemma rep_nil_inv h this : rep h this [] → this = empty_list.
Proof.
  intros (_ & _ & Hb & Hf & Hn & _). destruct this; simpl in *.
  unfold empty_list. by subst.
Qed.

Lemma rep_length_le h this cs : rep h this cs → (length cs ≤ live_nodes h)%nat.
Proof. intros (Hnd & Hseg & _). by eapply dseg_length_le. Qed.

(** The items of a chain determine its length. *)
Lemma rep_items_length cs : length cs.*2 = length cs.
Proof. apply length_fmap. Qed.

Lemma blank_pop_front_pop_front h this :
  blank_pop_front h this = '(h', this', _) ← pop_front h this; Ok (h', this').
Proof.
  unfold blank_pop_front, pop_front.
  destruct (empty this); simpl; [done|].
  destruct (deref h (front this)) as [n| | |]; simpl; try done.
  destruct (set_previous h (front this) None) as [h1| | |]; simpl; try done.
  destruct (previous n) as [b|]; simpl; try done.
  unfold deref. by destruct (h1 !! b).
Qed.

(** [clear] empties the list, destroying its nodes and no other. *)
Lemma clear_rep fuel h this cs :
  rep h this cs → (length cs ≤ fuel)%nat →
  ∃ h', clear fuel h this = Ok (h', empty_list)
        ∧ rep h' empty_list []
        ∧ (∀ b, b ∉ cs.*1 → h' !! b = h !! b).
Proof.
  revert fuel h this.
  induction cs as [|c cs IH] using rev_ind; intros fuel h this Hrep Hfuel.
  - exists h. pose proof (rep_nil_inv _ _ Hrep) as ->.
    split_and!; [by destruct fuel|done|done].
  - rewrite length_app in Hfuel. simpl in Hfuel.
    destruct fuel as [|fuel]; [lia|].
    pose proof (rep_empty _ _ _ Hrep) as Hempty.
    rewrite bool_decide_eq_false_2 in Hempty by (by destruct cs).
    destruct (pop_front_rep _ _ _ _ Hrep) as (h1 & this1 & Hpop & Hrep1 & Hframe & _).
    destruct (IH fuel h1 this1 Hrep1) as (h2 & Hclear & Hrep2 & Hframe2); [lia|].
    exists h2. simpl. rewrite Hempty. simpl.
    rewrite blank_pop_front_pop_front, Hpop. simpl.
    split_and!; [done|done|].
    intros b Hb. rewrite fmap_app in Hb. simpl in Hb.
    apply not_elem_of_app in Hb as [Hb1 Hb2].
    apply not_elem_of_cons in Hb2 as [Hb2 _].
    rewrite Hframe2 by done. apply Hframe; [done|].
    intros Hlast%last_loc_elem_of. done.
Qed.

(** [peek_front] reads the cell [front] points to, [peek_back] the one
    [back] points to; neither takes the store or the handle further. *)
Lemma peek_front_rep h this cs c :
  rep h this (cs ++ [c]) → peek_front h this = Ok c.2.
Proof.
  intros Hrep.
  pose proof (rep_empty _ _ _ Hrep) as Hempty.
  destruct Hrep as (_ & Hseg & _ & Hf & _).
  rewrite bool_decide_eq_false_2 in Hempty by (by destruct cs).
  rewrite last_loc_snoc in Hf.
  apply dseg_app in Hseg as [_ [Hc _]].
  unfold peek_front, deref. rewrite Hempty, Hf. simpl. by rewrite Hc.
Qed.

Lemma peek_back_rep h this c cs :
  rep h this (c :: cs) → peek_back h this = Ok c.2.
Proof.
  intros Hrep.
  pose proof (rep_empty _ _ _ Hrep) as Hempty.
  destruct Hrep as (_ & [Hc _] & Hb & _).
  rewrite bool_decide_eq_false_2 in Hempty by done.
  unfold peek_back, deref. rewrite Hempty, Hb. simpl. by rewrite Hc.
Qed.


(** ** Equality *)

Lemma equals_unfold fuel h node1 node2 :
  equals fuel h node1 node2 =
  if bool_decide (node1 = None) && bool_decide (node2 = None) then Ok true
  else if bool_decide (node1 = None) || bool_decide (node2 = None)
  then Ok false
  else
    n1 ← deref h node1;
    n2 ← deref h node2;
    if bool_decide (item n1 = item n2) then
      match fuel with
      | O => OutOfFuel
      | S fuel => equals fuel h (next n1) (next n2)
      end
    else Ok false.
Proof. by destruct fuel. Qed.

(** On two chains, [equals] decides whether they carry the same items. *)
Lemma equals_dseg fuel h p1 p2 cs1 cs2 :
  dseg h p1 cs1 None → dseg h p2 cs2 None →
  (length cs1 ≤ fuel)%nat →
  equals fuel h (hd_loc cs1 None) (hd_loc cs2 None)
  = Ok (bool_decide (cs1.*2 = cs2.*2)).
Proof.
  revert fuel p1 p2 cs2.
  induction cs1 as [|c1 cs1 IH]; intros fuel p1 p2 cs2 Hseg1 Hseg2 Hfuel.
  - rewrite equals_unfold. by destruct cs2.
  - rewrite equals_unfold. destruct cs2 as [|c2 cs2]; simpl; [done|].
    destruct Hseg1 as [Hc1 Hseg1]. destruct Hseg2 as [Hc2 Hseg2].
    rewrite Hc1, Hc2. simpl.
    destruct fuel as [|fuel]; [simpl in Hfuel; lia|].
    simpl in Hfuel.
    destruct (decide (c1.2 = c2.2)) as [Heq|Hne].
    + rewrite bool_decide_eq_true_2 by done.
      rewrite (IH fuel (Some c1.1) (Some c2.1) cs2) by (done || lia).
      f_equal. apply bool_decide_ext.
      change (cs1.*2 = cs2.*2 ↔ c1.2 :: cs1.*2 = c2.2 :: cs2.*2).
      rewrite Heq. split; [congruence|]. by intros [= ?].
    + rewrite bool_decide_eq_false_2 by done.
      rewrite bool_decide_eq_false_2; [done|]. by intros [= ? ?].
Qed.

Lemma op_eq_rep fuel h this rhs cs1 cs2 :
  rep h this cs1 → rep h rhs cs2 → (length cs1 ≤ fuel)%nat →
  op_eq fuel h this rhs = Ok (bool_decide (cs1.*2 = cs2.*2)).
Proof.
  intros (_ & Hseg1 & Hb1 & _) (_ & Hseg2 & Hb2 & _) Hfuel.
  unfold op_eq. rewrite Hb1, Hb2. by eapply equals_dseg.
Qed.

(** ** Iteration *)

Lemma visit_range_unfold fuel h it e :
  visit_range fuel h it e =
  more ← iterator_ne h it e;
  if more : bool then
    match fuel with
    | O => OutOfFuel
    | S fuel =>
        x ← iterator_star h it;
        it ← iterator_incr h it;
        xs ← visit_range fuel h it e;
        Ok (x :: xs)
    end
  else Ok [].
Proof. by destruct fuel. Qed.

Lemma visit_reverse_range_unfold fuel h it e :
  visit_reverse_range fuel h it e =
  more ← reverse_iterator_ne h it e;
  if more : bool then
    match fuel with
    | O => OutOfFuel
    | S fuel =>
        x ← reverse_iterator_star h it;
        it ← reverse_iterator_incr h it;
        xs ← visit_reverse_range fuel h it e;
        Ok (x :: xs)
    end
  else Ok [].
Proof. by destruct fuel. Qed.

(** Walking a chain along [next] up to the null iterator visits its items
    first to last, each once. *)
Lemma visit_range_dseg fuel h p cs :
  dseg h p cs None → (length cs ≤ fuel)%nat →
  visit_range fuel h (hd_loc cs None) None = Ok cs.*2.
Proof.
  revert fuel p. induction cs as [|c cs IH]; intros fuel p Hseg Hfuel.
  - by rewrite visit_range_unfold.
  - rewrite visit_range_unfold. destruct Hseg as [Hc Hseg].
    destruct fuel as [|fuel]; [simpl in Hfuel; lia|]. simpl in Hfuel.
    unfold iterator_ne, iterator_eq, iterator_star, iterator_incr, deref.
    simpl. rewrite Hc. simpl.
    rewrite (IH fuel (Some c.1)) by (done || lia). done.
Qed.

(** Walking it along [previous] visits the items last to first. *)
Lemma visit_reverse_range_dseg fuel h cs q :
  dseg h None cs q → (length cs ≤ fuel)%nat →
  visit_reverse_range fuel h (last_loc None cs) None = Ok (reverse cs.*2).
Proof.
  revert fuel q.
  induction cs as [|c cs IH] using rev_ind; intros fuel q Hseg Hfuel.
  - by rewrite visit_reverse_range_unfold.
  - rewrite visit_reverse_range_unfold.
    apply dseg_app in Hseg as [Hseg [Hc _]].
    rewrite length_app in Hfuel. simpl in Hfuel.
    destruct fuel as [|fuel]; [lia|].
    rewrite last_loc_snoc.
    unfold reverse_iterator_ne, reverse_iterator_eq, reverse_iterator_star,
      reverse_iterator_incr, deref.
    simpl. rewrite Hc. simpl.
    rewrite (IH fuel _ Hseg) by lia. simpl.
    by rewrite fmap_app, reverse_app.
Qed.

(** [end()] and [rend()] read a link of the node [last()], respectively
    [first()], returns: the null iterator on a list with a node, and a
    dereference of the null pointer on a list without. *)
Lemma end_rep h this cs c : rep h this (cs ++ [c]) → end_ h this = Ok None.
Proof.
  intros (_ & Hseg & _ & Hf & _).
  apply dseg_app in Hseg as [_ [Hc _]]. rewrite last_loc_snoc in Hf.
  unfold end_, list_next, list_last, deref. rewrite Hf. simpl. by rewrite Hc.
Qed.

Lemma rend_rep h this c cs : rep h this (c :: cs) → rend h this = Ok None.
Proof.
  intros (_ & [Hc _] & Hb & _).
  unfold rend, list_previous, list_first, deref. rewrite Hb. simpl.
  by rewrite Hc.
Qed.

Lemma end_rep_nil h this : rep h this [] → end_ h this = Undefined.
Proof. intros ->%rep_nil_inv. done. Qed.

Lemma rend_rep_nil h this : rep h this [] → rend h this = Undefined.
Proof. intros ->%rep_nil_inv. done. Qed.

Lemma forward_iteration_rep fuel h this cs :
  rep h this cs → cs ≠ [] → (length cs ≤ fuel)%nat →
  forward_iteration fuel h this = Ok cs.*2.
Proof.
  intros Hrep Hne Hfuel. unfold forward_iteration.
  destruct cs as [|c0 cs0 _] using rev_ind; [done|].
  rewrite (end_rep _ _ _ _ Hrep). simpl.
  destruct Hrep as (_ & Hseg & Hb & _).
  unfold begin, list_first. rewrite Hb. by eapply visit_range_dseg.
Qed.

Lemma reverse_iteration_rep fuel h this cs :
  rep h this cs → cs ≠ [] → (length cs ≤ fuel)%nat →
  reverse_iteration fuel h this = Ok (reverse cs.*2).
Proof.
  intros Hrep Hne Hfuel. unfold reverse_iteration.
  destruct cs as [|c0 cs0]; [done|].
  rewrite (rend_rep _ _ _ _ Hrep). simpl.
  destruct Hrep as (_ & Hseg & _ & Hf & _).
  unfold rbegin, list_last. rewrite Hf. by eapply visit_reverse_range_dseg.
Qed.

Lemma forward_iteration_rep_nil fuel h this :
  rep h this [] → forward_iteration fuel h this = Undefined.
Proof. intros ->%rep_nil_inv. done. Qed.


(** ** Copy and concatenation *)

Lemma push_back_BadAlloc h this x :
  ¬ Z.of_nat (live_nodes h) < max_live_nodes →
  push_back h this x = BadAlloc.
Proof.
  intros Hfull. unfold push_back, make_shared. by rewrite decide_False.
Qed.

(** One turn of the loop of the copy constructor and of [operator+=], over
    a chain [c :: suf] that shares no node with the list appended to. *)
Lemma append_step h this cs p c suf :
  rep h this cs →
  dseg h p (c :: suf) None →
  separate cs (c :: suf) →
  Z.of_nat (live_nodes h) < max_live_nodes →
  ∃ h1 this1 a,
    push_back h this c.2 = Ok (h1, this1)
    ∧ h !! a = None
    ∧ rep h1 this1 (cs ++ [(a, c.2)])
    ∧ dseg h1 (Some c.1) suf None
    ∧ separate (cs ++ [(a, c.2)]) suf
    ∧ (∀ b, is_Some (h !! b) → b ∉ cs.*1 → h1 !! b = h !! b)
    ∧ live_nodes h1 = S (live_nodes h).
Proof.
  intros Hrep [Hc Hseg] Hsep Hroom.
  destruct (push_back_rep h this cs c.2 Hrep Hroom) as
    (h1 & this1 & a & Hpush & Hfresh & Hrep1 & Hframe1 & Hsize1).
  assert (Hold : ∀ b, is_Some (h !! b) → b ∉ cs.*1 → h1 !! b = h !! b).
  { intros b [n Hb] Hnotin. apply Hframe1; [congruence|].
    intros Hlast%last_loc_elem_of. done. }
  exists h1, this1, a. split_and!; try done.
  - eapply dseg_frame; [|exact Hseg]. intros b Hb. apply Hold.
    + by eapply dseg_is_Some.
    + intros Hin. apply (Hsep b Hin). rewrite fmap_cons.
      by apply list_elem_of_further.
  - intros b Hb1 Hb2. rewrite fmap_app in Hb1. simpl in Hb1.
    apply elem_of_app in Hb1 as [Hb1|Hb1].
    + apply (Hsep b Hb1). rewrite fmap_cons. by apply list_elem_of_further.
    + apply list_elem_of_singleton in Hb1 as ->.
      destruct (dseg_is_Some _ _ _ _ _ Hseg Hb2) as [n Hn]. congruence.
Qed.

Lemma append_loop_cons fuel h this p c suf h1 this1 cs :
  dseg h p (c :: suf) None →
  separate cs (c :: suf) →
  push_back h this c.2 = Ok (h1, this1) →
  (∀ b, is_Some (h !! b) → b ∉ cs.*1 → h1 !! b = h !! b) →
  append_loop (S fuel) h this (Some c.1)
  = append_loop fuel h1 this1 (hd_loc suf None).
Proof.
  intros [Hc _] Hsep Hpush Hold. simpl. rewrite Hc. simpl.
  rewrite Hpush. simpl. rewrite Hold, Hc; [done|eauto|].
  intros Hin. apply (Hsep c.1 Hin). rewrite fmap_cons. apply list_elem_of_here.
Qed.

(** The whole loop: it returns when the step budget and the store have room
    for the cells of [suf]... *)
Lemma append_loop_rep_gen fuel h this cs p suf :
  rep h this cs →
  dseg h p suf None →
  separate cs suf →
  (length suf ≤ fuel)%nat →
  (suf ≠ [] →
   Z.of_nat (live_nodes h) + Z.of_nat (length suf) ≤ max_live_nodes) →
  ∃ h' this' new,
    append_loop fuel h this (hd_loc suf None) = Ok (h', this')
    ∧ rep h' this' (cs ++ new)
    ∧ new.*2 = suf.*2
    ∧ (∀ b, is_Some (h !! b) → b ∉ cs.*1 → h' !! b = h !! b)
    ∧ (∀ a, a ∈ new.*1 → h !! a = None)
    ∧ live_nodes h' = (live_nodes h + length suf)%nat.
Proof.
  revert fuel h this cs p.
  induction suf as [|c suf IH]; intros fuel h this cs p Hrep Hseg Hsep Hfuel Hroom.
  - exists h, this, []. simpl. rewrite app_nil_r.
    split_and!;
      first [ done | by destruct fuel | lia
            | intros a Ha; by apply elem_of_nil in Ha ].
  - specialize (Hroom ltac:(done)).
    rewrite length_cons in Hfuel, Hroom.
    destruct fuel as [|fuel]; [lia|].
    destruct (append_step h this cs p c suf Hrep Hseg Hsep) as
      (h1 & this1 & a & Hpush & Hfresh & Hrep1 & Hseg1 & Hsep1 & Hold & Hsize1);
      [lia|].
    destruct (IH fuel h1 this1 (cs ++ [(a, c.2)]) (Some c.1) Hrep1 Hseg1 Hsep1)
      as (h2 & this2 & new & Hloop & Hrep2 & Hitems & Hframe2 & Hnew & Hsize2);
      [lia|lia|].
    exists h2, this2, ((a, c.2) :: new).
    split_and!.
    + simpl hd_loc. by erewrite append_loop_cons.
    + by rewrite <-app_assoc in Hrep2.
    + rewrite !fmap_cons. by rewrite Hitems.
    + intros b Hb Hnotin. rewrite Hframe2.
      * by apply Hold.
      * rewrite Hold by done. done.
      * rewrite fmap_app. simpl. intros [Hin|Hin]%elem_of_app; [done|].
        apply list_elem_of_singleton in Hin as ->.
        destruct Hb as [n Hb]. congruence.
    + intros b Hb. rewrite fmap_cons in Hb. simpl in Hb.
      apply elem_of_cons in Hb as [->|Hb]; [done|].
      specialize (Hnew b Hb).
      destruct (h !! b) as [n|] eqn:Hhb; [|done].
      destruct (decide (b ∈ cs.*1)) as [Hin|Hnotin].
      * destruct Hrep1 as (_ & Hsegc & _).
        assert (is_Some (h1 !! b)) as [n1 Hn1]; [|congruence].
        eapply dseg_is_Some; [exact Hsegc|].
        rewrite fmap_app. apply elem_of_app. by left.
      * rewrite Hold in Hnew by (done || eauto). congruence.
    + rewrite Hsize2, Hsize1, length_cons. lia.
Qed.

Lemma append_loop_rep fuel h this cs p suf :
  rep h this cs →
  dseg h p suf None →
  separate cs suf →
  (length suf ≤ fuel)%nat →
  Z.of_nat (live_nodes h) + Z.of_nat (length suf) ≤ max_live_nodes →
  ∃ h' this' new,
    append_loop fuel h this (hd_loc suf None) = Ok (h', this')
    ∧ rep h' this' (cs ++ new)
    ∧ new.*2 = suf.*2
    ∧ (∀ b, is_Some (h !! b) → b ∉ cs.*1 → h' !! b = h !! b)
    ∧ (∀ a, a ∈ new.*1 → h !! a = None)
    ∧ live_nodes h' = (live_nodes h + length suf)%nat.
Proof. intros. by eapply append_loop_rep_gen. Qed.

(** ... and only then. *)
Lemma append_loop_Ok_resources fuel h this cs p suf r :
  rep h this cs →
  dseg h p suf None →
  separate cs suf →
  append_loop fuel h this (hd_loc suf None) = Ok r →
  (length suf ≤ fuel)%nat
  ∧ (suf ≠ [] →
     Z.of_nat (live_nodes h) + Z.of_nat (length suf) ≤ max_live_nodes).
Proof.
  revert fuel h this cs p.
  induction suf as [|c suf IH]; intros fuel h this cs p Hrep Hseg Hsep Hok.
  - split; [simpl; lia|done].
  - destruct fuel as [|fuel]; [done|].
    destruct (decide (Z.of_nat (live_nodes h) < max_live_nodes))
      as [Hroom|Hfull]; last first.
    { simpl in Hok. destruct Hseg as [Hc _]. rewrite Hc in Hok. simpl in Hok.
      by rewrite push_back_BadAlloc in Hok. }
    destruct (append_step h this cs p c suf Hrep Hseg Hsep Hroom) as
      (h1 & this1 & a & Hpush & Hfresh & Hrep1 & Hseg1 & Hsep1 & Hold & Hsize1).
    simpl hd_loc in Hok. erewrite append_loop_cons in Hok by done.
    destruct (IH fuel h1 this1 _ _ Hrep1 Hseg1 Hsep1 Hok) as [Hfuel Hroom1].
    rewrite length_cons. split; [lia|]. intros _.
    destruct suf as [|c1 suf]; [simpl; lia|].
    specialize (Hroom1 ltac:(done)). lia.
Qed.

Lemma append_loop_Ok fuel h this cs p suf h' this' :
  rep h this cs →
  dseg h p suf None →
  separate cs suf →
  append_loop fuel h this (hd_loc suf None) = Ok (h', this') →
  ∃ new,
    rep h' this' (cs ++ new)
    ∧ new.*2 = suf.*2
    ∧ (∀ b, is_Some (h !! b) → b ∉ cs.*1 → h' !! b = h !! b)
    ∧ (∀ a, a ∈ new.*1 → h !! a = None).
Proof.
  intros Hrep Hseg Hsep Hok.
  destruct (append_loop_Ok_resources _ _ _ _ _ _ _ Hrep Hseg Hsep Hok)
    as [Hfuel Hroom].
  destruct (append_loop_rep_gen fuel h this cs p suf Hrep Hseg Hsep Hfuel Hroom)
    as (h2 & this2 & new & Hloop & Hrep2 & Hitems & Hframe & Hnew & _).
  rewrite Hok in Hloop. injection Hloop as <- <-. by exists new.
Qed.

Lemma separate_nil_l cs : separate [] cs.
Proof. intros a Ha. by apply elem_of_nil in Ha. Qed.

Lemma separate_sym cs1 cs2 : separate cs1 cs2 → separate cs2 cs1.
Proof. intros Hsep a H1 H2. by apply (Hsep a). Qed.

(** Cells that are not in the store are apart from every chain in it. *)
Lemma separate_fresh h p cs q new :
  dseg h p cs q → (∀ a, a ∈ new.*1 → h !! a = None) → separate new cs.
Proof.
  intros Hseg Hnew a Ha1 Ha2.
  destruct (dseg_is_Some _ _ _ _ _ Hseg Ha2) as [n Hn].
  rewrite (Hnew a Ha1) in Hn. done.
Qed.

(** When the loop throws, it has pushed the items of a strict prefix of the
    chain and [std::make_shared] has failed in the next [push_back], before
    anything of that push was written: the list appended to is as the pushes
    of the prefix left it. *)
Lemma append_loop_BadAlloc fuel h this cs p suf :
  rep h this cs → dseg h p suf None → separate cs suf →
  append_loop fuel h this (hd_loc suf None) = BadAlloc →
  ∃ k x h1 this1 new,
    suf.*2 !! k = Some x
    ∧ push_back_all h this (take k suf.*2) = Ok (h1, this1)
    ∧ push_back h1 this1 x = BadAlloc
    ∧ rep h1 this1 (cs ++ new)
    ∧ new.*2 = take k suf.*2
    ∧ (∀ b, is_Some (h !! b) → b ∉ cs.*1 → h1 !! b = h !! b).
Proof.
  revert fuel h this cs p.
  induction suf as [|c suf IH]; intros fuel h this cs p Hrep Hseg Hsep Hbad.
  - by destruct fuel.
  - destruct fuel as [|fuel]; [done|].
    destruct (decide (Z.of_nat (live_nodes h) < max_live_nodes))
      as [Hroom|Hfull].
    + destruct (append_step h this cs p c suf Hrep Hseg Hsep Hroom) as
        (h1 & this1 & a & Hpush & Hfresh & Hrep1 & Hseg1 & Hsep1 & Hold & _).
      change (hd_loc (c :: suf) None) with (Some c.1) in Hbad.
      rewrite (append_loop_cons fuel h this p c suf h1 this1 cs
                 Hseg Hsep Hpush Hold) in Hbad.
      destruct (IH fuel h1 this1 _ _ Hrep1 Hseg1 Hsep1 Hbad) as
        (k & x & h2 & this2 & new & Hk & Hall & Hthrow & Hrep2 & Hitems
         & Hframe).
      exists (S k), x, h2, this2, ((a, c.2) :: new). split_and!.
      * done.
      * simpl. by rewrite Hpush.
      * done.
      * by rewrite <-app_assoc in Hrep2.
      * rewrite !fmap_cons. simpl. f_equal. exact Hitems.
      * intros b Hb Hnotin. rewrite Hframe.
        -- by apply Hold.
        -- by rewrite Hold.
        -- rewrite fmap_app. intros [Hin|Hin]%elem_of_app; [done|].
           apply list_elem_of_singleton in Hin. simpl in Hin. subst b.
           destruct Hb as [n Hn]. congruence.
    + exists 0%nat, c.2, h, this, []. split_and!; try done.
      * by apply push_back_BadAlloc.
      * by rewrite app_nil_r.
Qed.

(** The copy constructor builds a chain of new cells with the items of
    [other], first to last, and leaves every node of the store as it was. *)
Lemma copy_ctor_rep fuel h other cs :
  rep h other cs →
  (length cs ≤ fuel)%nat →
  Z.of_nat (live_nodes h) + Z.of_nat (length cs) ≤ max_live_nodes →
  ∃ h' copy new,
    copy_ctor fuel h other = Ok (h', copy)
    ∧ rep h' copy new
    ∧ new.*2 = cs.*2
    ∧ (∀ b, is_Some (h !! b) → h' !! b = h !! b)
    ∧ (∀ a, a ∈ new.*1 → h !! a = None)
    ∧ live_nodes h' = (live_nodes h + length cs)%nat.
Proof.
  intros Hrep Hfuel Hroom.
  destruct Hrep as (_ & Hseg & Hb & _).
  destruct (append_loop_rep fuel h empty_list [] None cs (rep_nil h) Hseg
              (separate_nil_l cs) Hfuel Hroom)
    as (h' & copy & new & Hloop & Hrep' & Hitems & Hframe & Hnew & Hsize).
  exists h', copy, new. unfold copy_ctor. rewrite Hb.
  split_and!; try done.
  intros b Hb'. apply Hframe; [done|]. intros Hin. by apply elem_of_nil in Hin.
Qed.

(** [this += rhs] for two lists that share no node. *)
Lemma op_plus_assign_rep fuel h this rhs cs1 cs2 :
  rep h this cs1 → rep h rhs cs2 →
  separate cs1 cs2 →
  (length cs2 ≤ fuel)%nat →
  Z.of_nat (live_nodes h) + Z.of_nat (length cs2) ≤ max_live_nodes →
  ∃ h' this' new,
    op_plus_assign fuel h this rhs = Ok (h', this')
    ∧ rep h' this' (cs1 ++ new)
    ∧ new.*2 = cs2.*2
    ∧ (∀ b, is_Some (h !! b) → b ∉ cs1.*1 → h' !! b = h !! b)
    ∧ (∀ a, a ∈ new.*1 → h !! a = None)
    ∧ live_nodes h' = (live_nodes h + length cs2)%nat.
Proof.
  intros Hrep1 Hrep2 Hsep Hfuel Hroom.
  pose proof (rep_empty _ _ _ Hrep2) as Hempty.
  destruct Hrep2 as (_ & Hseg2 & Hb2 & _).
  unfold op_plus_assign. rewrite Hempty.
  destruct cs2 as [|c2 cs2].
  - exists h, this, []. simpl. rewrite app_nil_r.
    split_and!;
      first [ done | lia | intros a Ha; by apply elem_of_nil in Ha ].
  - rewrite bool_decide_eq_false_2 by done. simpl negb. cbv iota.
    rewrite Hb2. by eapply append_loop_rep.
Qed.


Lemma push_back_Ok h this cs x h' this' :
  rep h this cs → push_back h this x = Ok (h', this') →
  ∃ a, h !! a = None ∧ rep h' this' (cs ++ [(a, x)]).
Proof.
  intros Hrep Hok.
  destruct (decide (Z.of_nat (live_nodes h) < max_live_nodes)) as [Hroom|Hfull].
  - destruct (push_back_rep h this cs x Hrep Hroom) as
      (h1 & this1 & a & Hpush & Hfresh & Hrep1 & _).
    rewrite Hok in Hpush. injection Hpush as <- <-. by exists a.
  - by rewrite push_back_BadAlloc in Hok.
Qed.

Lemma push_front_Ok h this cs x h' this' :
  rep h this cs → push_front h this x = Ok (h', this') →
  ∃ a, h !! a = None ∧ rep h' this' ((a, x) :: cs).
Proof.
  intros Hrep Hok.
  destruct (decide (Z.of_nat (live_nodes h) < max_live_nodes)) as [Hroom|Hfull].
  - destruct (push_front_rep h this cs x Hrep Hroom) as
      (h1 & this1 & a & Hpush & Hfresh & Hrep1 & _).
    rewrite Hok in Hpush. injection Hpush as <- <-. by exists a.
  - unfold push_front, make_shared in Hok. by rewrite decide_False in Hok.
Qed.

Lemma clear_Ok fuel h this cs h' this' :
  rep h this cs → clear fuel h this = Ok (h', this') →
  this' = empty_list
  ∧ rep h' empty_list []
  ∧ (∀ b, b ∉ cs.*1 → h' !! b = h !! b).
Proof.
  intros Hrep Hok.
  assert (length cs ≤ fuel)%nat as Hfuel.
  { revert fuel h this Hrep Hok.
    induction cs as [|c cs IH] using rev_ind; intros fuel h this Hrep Hok.
    - simpl. lia.
    - pose proof (rep_empty _ _ _ Hrep) as Hempty.
      rewrite bool_decide_eq_false_2 in Hempty by (by destruct cs).
      rewrite length_app. simpl.
      destruct fuel as [|fuel]; simpl in Hok; rewrite Hempty in Hok; [done|].
      simpl in Hok.
      destruct (pop_front_rep _ _ _ _ Hrep) as (h1 & this1 & Hpop & Hrep1 & _).
      rewrite blank_pop_front_pop_front, Hpop in Hok. simpl in Hok.
      specialize (IH fuel h1 this1 Hrep1 Hok). lia. }
  destruct (clear_rep fuel h this cs Hrep Hfuel) as (h2 & Hclear & Hrest).
  rewrite Hok in Hclear. by injection Hclear as -> ->.
Qed.

Lemma copy_ctor_Ok fuel h other cs h' copy :
  rep h other cs → copy_ctor fuel h other = Ok (h', copy) →
  ∃ new,
    rep h' copy new
    ∧ new.*2 = cs.*2
    ∧ (∀ b, is_Some (h !! b) → h' !! b = h !! b)
    ∧ (∀ a, a ∈ new.*1 → h !! a = None).
Proof.
  intros (_ & Hseg & Hb & _) Hok. unfold copy_ctor in Hok. rewrite Hb in Hok.
  destruct (append_loop_Ok fuel h empty_list [] None cs h' copy (rep_nil h)
              Hseg (separate_nil_l cs) Hok)
    as (new & Hrep' & Hitems & Hframe & Hnew).
  exists new. split_and!; try done.
  intros b Hb'. apply Hframe; [done|]. intros Hin. by apply elem_of_nil in Hin.
Qed.

Lemma op_plus_assign_Ok fuel h this rhs cs1 cs2 h' this' :
  rep h this cs1 → rep h rhs cs2 →
  separate cs1 cs2 →
  op_plus_assign fuel h this rhs = Ok (h', this') →
  ∃ new,
    rep h' this' (cs1 ++ new)
    ∧ new.*2 = cs2.*2
    ∧ (∀ b, is_Some (h !! b) → b ∉ cs1.*1 → h' !! b = h !! b)
    ∧ (∀ a, a ∈ new.*1 → h !! a = None).
Proof.
  intros Hrep1 Hrep2 Hsep Hok.
  pose proof (rep_empty _ _ _ Hrep2) as Hempty.
  destruct Hrep2 as (_ & Hseg2 & Hb2 & _).
  unfold op_plus_assign in Hok. rewrite Hempty in Hok.
  destruct cs2 as [|c2 cs2].
  - simpl in Hok. injection Hok as <- <-. exists []. rewrite app_nil_r.
    split_and!; try done. intros a Ha. by apply elem_of_nil in Ha.
  - rewrite bool_decide_eq_false_2 in Hok by done. simpl negb in Hok.
    cbv iota in Hok. rewrite Hb2 in Hok. by eapply append_loop_Ok.
Qed.

(** The destructor touches no node outside the chain of its list. *)
Lemma destructor_frame h this cs b :
  rep h this cs → b ∉ cs.*1 → destructor h this !! b = h !! b.
Proof.
  intros (_ & _ & _ & Hf & _) Hb. unfold destructor.
  case_bool_decide; [|done].
  destruct (front this) as [a|] eqn:Hfront; [|done]. simpl.
  apply lookup_delete_ne. intros ->. apply Hb.
  apply last_loc_elem_of. by rewrite <-Hf.
Qed.

(** The free [operator+] returns a list of new cells holding the items of
    [lhs] followed by those of [rhs], and leaves both operands as they were;
    the operands may be one list. *)
Lemma free_op_plus_Ok fuel h lhs rhs cs1 cs2 h' returned :
  rep h lhs cs1 → rep h rhs cs2 →
  free_op_plus fuel h lhs rhs = Ok (h', returned) →
  ∃ new,
    rep h' returned new
    ∧ new.*2 = cs1.*2 ++ cs2.*2
    ∧ rep h' lhs cs1
    ∧ rep h' rhs cs2.
Proof.
  intros Hrep1 Hrep2 Hok. unfold free_op_plus in Hok.
  destruct (copy_ctor fuel h lhs) as [[h1 result]| | |] eqn:Hcopy;
    simpl in Hok; [|done..].
  destruct (copy_ctor_Ok _ _ _ _ _ _ Hrep1 Hcopy) as
    (new1 & Hres & Hitems1 & Hframe1 & Hnew1).
  assert (Hkeep1 : ∀ this cs, rep h this cs → rep h1 this cs).
  { intros this cs Hrep. eapply rep_frame; [|exact Hrep].
    intros a Ha. apply Hframe1.
    destruct Hrep as (_ & Hseg & _). by eapply dseg_is_Some. }
  assert (Hsep1 : ∀ this cs, rep h this cs → separate new1 cs).
  { intros this cs (_ & Hseg & _). by eapply separate_fresh. }
  destruct (op_plus_assign fuel h1 result rhs) as [[h2 result2]| | |] eqn:Hplus;
    simpl in Hok; [|done..].
  destruct (op_plus_assign_Ok _ _ _ _ _ _ _ _ Hres (Hkeep1 _ _ Hrep2)
              (Hsep1 _ _ Hrep2) Hplus) as
    (new2 & Hres2 & Hitems2 & Hframe2 & Hnew2).
  assert (Hkeep2 : ∀ this cs, rep h this cs → rep h2 this cs).
  { intros this cs Hrep. eapply rep_frame; [|exact (Hkeep1 _ _ Hrep)].
    intros a Ha.
    assert (is_Some (h1 !! a)) as Hsome.
    { destruct (Hkeep1 _ _ Hrep) as (_ & Hseg & _). by eapply dseg_is_Some. }
    apply Hframe2; [done|]. intros Hin. by apply (Hsep1 _ _ Hrep a). }
  assert (Hsep2 : ∀ this cs, rep h this cs → separate (new1 ++ new2) cs).
  { intros this cs Hrep a Ha1 Ha2. rewrite fmap_app in Ha1.
    apply elem_of_app in Ha1 as [Ha1|Ha1]; [by apply (Hsep1 _ _ Hrep a)|].
    destruct (Hkeep1 _ _ Hrep) as (_ & Hseg & _).
    destruct (dseg_is_Some _ _ _ _ _ Hseg Ha2) as [n Hn].
    rewrite (Hnew2 a Ha1) in Hn. done. }
  destruct (copy_ctor fuel h2 result2) as [[h3 returned3]| | |] eqn:Hcopy3;
    simpl in Hok; [|done..].
  injection Hok as <- <-.
  destruct (copy_ctor_Ok _ _ _ _ _ _ Hres2 Hcopy3) as
    (new3 & Hres3 & Hitems3 & Hframe3 & Hnew3).
  assert (Hkeep3 : ∀ this cs, rep h2 this cs → rep h3 this cs).
  { intros this cs Hrep. eapply rep_frame; [|exact Hrep].
    intros a Ha. apply Hframe3.
    destruct Hrep as (_ & Hseg & _). by eapply dseg_is_Some. }
  assert (Hout : ∀ this cs, rep h3 this cs → separate (new1 ++ new2) cs →
                 rep (destructor h3 result2) this cs).
  { intros this cs Hrep Hsep. eapply rep_frame; [|exact Hrep].
    intros a Ha. eapply destructor_frame; [exact (Hkeep3 _ _ Hres2)|].
    intros Hin. by apply (Hsep a). }
  exists new3. split_and!.
  - apply Hout; [done|]. apply separate_sym.
    destruct Hres2 as (_ & Hseg & _). by eapply separate_fresh.
  - by rewrite Hitems3, fmap_app, Hitems1, Hitems2.
  - apply Hout; [by apply Hkeep3, Hkeep2|by eapply Hsep2].
  - apply Hout; [by apply Hkeep3, Hkeep2|by eapply Hsep2].
Qed.

Lemma length_items_eq cs1 cs2 : cs1.*2 = cs2.*2 → length cs1 = length cs2.
Proof.
  intros Heq. by rewrite <-(length_fmap snd cs1), Heq, length_fmap.
Qed.

Lemma free_op_plus_rep fuel h lhs rhs cs1 cs2 :
  rep h lhs cs1 → rep h rhs cs2 →
  (length cs1 + length cs2 ≤ fuel)%nat →
  Z.of_nat (live_nodes h) + 2 * Z.of_nat (length cs1 + length cs2)
    ≤ max_live_nodes →
  ∃ h' returned new,
    free_op_plus fuel h lhs rhs = Ok (h', returned)
    ∧ rep h' returned new
    ∧ new.*2 = cs1.*2 ++ cs2.*2
    ∧ rep h' lhs cs1
    ∧ rep h' rhs cs2.
Proof.
  intros Hrep1 Hrep2 Hfuel Hroom.
  assert (∃ r, free_op_plus fuel h lhs rhs = Ok r) as [[h' returned] Hok].
  { unfold free_op_plus.
    destruct (copy_ctor_rep fuel h lhs cs1 Hrep1) as
      (h1 & result & new1 & Hcopy & Hres & Hitems1 & Hframe1 & Hnew1 & Hsize1);
      [lia|lia|].
    rewrite Hcopy. simpl.
    assert (rep h1 rhs cs2) as Hrep2'.
    { eapply rep_frame; [|exact Hrep2]. intros a Ha. apply Hframe1.
      destruct Hrep2 as (_ & Hseg & _). by eapply dseg_is_Some. }
    assert (separate new1 cs2) as Hsep.
    { destruct Hrep2 as (_ & Hseg & _). by eapply separate_fresh. }
    destruct (op_plus_assign_rep fuel h1 result rhs new1 cs2 Hres Hrep2' Hsep)
      as (h2 & result2 & new2 & Hplus & Hres2 & Hitems2 & _ & _ & Hsize2);
      [lia|lia|].
    rewrite Hplus. simpl.
    apply length_items_eq in Hitems1, Hitems2.
    destruct (copy_ctor_rep fuel h2 result2 (new1 ++ new2) Hres2) as
      (h3 & returned & new3 & Hcopy3 & _);
      [rewrite length_app; lia|rewrite length_app; lia|].
    rewrite Hcopy3. simpl. by eexists. }
  destruct (free_op_plus_Ok _ _ _ _ _ _ _ _ Hrep1 Hrep2 Hok) as (new & Hrest).
  by exists h', returned, new.
Qed.

(** ** Appending a list to itself *)

(** In a chain with a cell after it, a node has a successor in the chain. *)
Lemma dseg_next_in h p cs c' q b :
  dseg h p (cs ++ [c']) q → b ∈ cs.*1 →
  ∃ n b', h !! b = Some n ∧ next n = Some b' ∧ b' ∈ (cs ++ [c']).*1.
Proof.
  revert p. induction cs as [|c cs IH]; intros p Hseg Hb.
  - by apply elem_of_nil in Hb.
  - rewrite fmap_cons in Hb. destruct Hseg as [Hc Hseg].
    apply elem_of_cons in Hb as [->|Hb].
    + destruct cs as [|c1 cs].
      * eexists _, c'.1. split; [exact Hc|]. split; [done|].
        apply list_elem_of_further, list_elem_of_here.
      * eexists _, c1.1. split; [exact Hc|]. split; [done|].
        apply list_elem_of_further, list_elem_of_here.
    + destruct (IH _ Hseg Hb) as (n & b' & Hn & Hnext & Hin).
      exists n, b'. split_and!; [done|done|].
      by apply list_elem_of_further.
Qed.

(** When the node the loop stands on belongs to the list it appends to, each
    push gives that node a successor: the loop never meets the null link. *)
Lemma append_loop_self fuel h this cs b :
  rep h this cs → b ∈ cs.*1 →
  append_loop fuel h this (Some b) = OutOfFuel
  ∨ append_loop fuel h this (Some b) = BadAlloc.
Proof.
  revert h this cs b.
  induction fuel as [|fuel IH]; intros h this cs b Hrep Hb; [by left|].
  simpl.
  destruct Hrep as (Hnd & Hseg & Hrest).
  destruct (dseg_is_Some _ _ _ _ _ Hseg Hb) as [n Hn]. rewrite Hn. simpl.
  destruct (decide (Z.of_nat (live_nodes h) < max_live_nodes)) as [Hroom|Hfull].
  - destruct (push_back_rep h this cs (item n)) as
      (h1 & this1 & a & Hpush & Hfresh & Hrep1 & _); [done|done|].
    rewrite Hpush. simpl.
    destruct Hrep1 as (Hnd1 & Hseg1 & Hrest1).
    destruct (dseg_next_in _ _ _ _ _ _ Hseg1 Hb) as (n1 & b' & Hn1 & Hnext & Hin).
    rewrite Hn1. simpl. rewrite Hnext.
    by apply (IH h1 this1 (cs ++ [(a, item n)]) b').
  - rewrite push_back_BadAlloc by done. by right.
Qed.

Lemma op_plus_assign_self fuel h this cs :
  rep h this cs → cs ≠ [] →
  op_plus_assign fuel h this this = OutOfFuel
  ∨ op_plus_assign fuel h this this = BadAlloc.
Proof.
  intros Hrep Hne. unfold op_plus_assign.
  rewrite (rep_empty _ _ _ Hrep), bool_decide_eq_false_2 by done.
  simpl negb. cbv iota.
  destruct cs as [|c cs]; [done|].
  pose proof Hrep as (_ & _ & Hb & _). rewrite Hb. simpl.
  eapply append_loop_self; [done|]. rewrite fmap_cons. apply list_elem_of_here.
Qed.


(** ** Sequences of pushes and pops *)

Lemma apply_pushes_cons xs op ops :
  apply_pushes xs (op :: ops) =
  apply_pushes (match op with
                | PushFront x => x :: xs
                | PushBack x => xs ++ [x]
                end) ops.
Proof. done. Qed.

Lemma run_pushes_rep h this cs ops :
  rep h this cs →
  Z.of_nat (live_nodes h) + Z.of_nat (length ops) ≤ max_live_nodes →
  ∃ h' this' cs',
    run_pushes h this ops = Ok (h', this')
    ∧ rep h' this' cs'
    ∧ cs'.*2 = apply_pushes cs.*2 ops
    ∧ (∀ b, is_Some (h !! b) → b ∉ cs.*1 → h' !! b = h !! b)
    ∧ (∀ a, a ∈ cs'.*1 → a ∈ cs.*1 ∨ h !! a = None)
    ∧ live_nodes h' = (live_nodes h + length ops)%nat.
Proof.
  revert h this cs.
  induction ops as [|op ops IH]; intros h this cs Hrep Hroom.
  - exists h, this, cs. split_and!; first [done | lia | by left].
  - rewrite length_cons in Hroom.
    assert (∃ h1 this1 a cs1,
      (match op with
       | PushFront x => push_front h this x
       | PushBack x => push_back h this x
       end) = Ok (h1, this1)
      ∧ h !! a = None
      ∧ rep h1 this1 cs1
      ∧ cs1.*2 = match op with
                 | PushFront x => x :: cs.*2
                 | PushBack x => cs.*2 ++ [x]
                 end
      ∧ (∀ b, b ∈ cs1.*1 ↔ b = a ∨ b ∈ cs.*1)
      ∧ (∀ b, is_Some (h !! b) → b ∉ cs.*1 → h1 !! b = h !! b)
      ∧ live_nodes h1 = S (live_nodes h))
      as (h1 & this1 & a & cs1 & Hpush & Hfresh & Hrep1 & Hitems1 & Hcells
          & Hframe1 & Hsize1).
    { destruct op as [x|x].
      - destruct (push_front_rep h this cs x Hrep) as
          (h1 & this1 & a & Hpush & Hfresh & Hrep1 & Hframe & Hsize); [lia|].
        exists h1, this1, a, ((a, x) :: cs).
        split_and!; try done.
        + intros b. rewrite fmap_cons. apply elem_of_cons.
        + intros b [n Hb] Hnotin. apply Hframe; [congruence|].
          intros Hhd%hd_loc_elem_of. done.
      - destruct (push_back_rep h this cs x Hrep) as
          (h1 & this1 & a & Hpush & Hfresh & Hrep1 & Hframe & Hsize); [lia|].
        exists h1, this1, a, (cs ++ [(a, x)]).
        split_and!; try done.
        + by rewrite fmap_app.
        + intros b. rewrite fmap_app, elem_of_app. simpl.
          rewrite list_elem_of_singleton. tauto.
        + intros b [n Hb] Hnotin. apply Hframe; [congruence|].
          intros Hlast%last_loc_elem_of. done. }
    destruct (IH h1 this1 cs1 Hrep1) as
      (h2 & this2 & cs2 & Hrun & Hrep2 & Hitems2 & Hframe2 & Hcells2 & Hsize2);
      [lia|].
    exists h2, this2, cs2. split_and!.
    + simpl. destruct op; rewrite Hpush; simpl; exact Hrun.
    + done.
    + rewrite apply_pushes_cons, Hitems2, Hitems1. done.
    + intros b Hb Hnotin. rewrite Hframe2.
      * by apply Hframe1.
      * by rewrite Hframe1.
      * rewrite Hcells. intros [->|Hin]; [|done].
        destruct Hb as [n Hb]. congruence.
    + intros b Hb. destruct (Hcells2 b Hb) as [Hin|Hnone].
      * apply Hcells in Hin as [->|Hin]; [by right|by left].
      * destruct (h !! b) as [n|] eqn:Hhb; [|by right].
        destruct (decide (b ∈ cs.*1)) as [Hin|Hnotin]; [by left|].
        rewrite Hframe1 in Hnone by (done || eauto). congruence.
    + rewrite Hsize2, Hsize1, length_cons. lia.
Qed.

Lemma push_back_all_run h this xs :
  push_back_all h this xs = run_pushes h this (PushBack <$> xs).
Proof.
  revert h this. induction xs as [|x xs IH]; intros h this; [done|].
  simpl. destruct (push_back h this x) as [[h1 this1]| | |]; simpl; [|done..].
  apply IH.
Qed.

Lemma push_front_all_run h this xs :
  push_front_all h this xs = run_pushes h this (PushFront <$> xs).
Proof.
  revert h this. induction xs as [|x xs IH]; intros h this; [done|].
  simpl. destruct (push_front h this x) as [[h1 this1]| | |]; simpl; [|done..].
  apply IH.
Qed.

Lemma apply_pushes_back (xs0 xs : list T) :
  apply_pushes xs0 (PushBack <$> xs) = xs0 ++ xs.
Proof.
  revert xs0. induction xs as [|x xs IH]; intros xs0.
  - by rewrite app_nil_r.
  - rewrite fmap_cons, apply_pushes_cons, IH. by rewrite <-app_assoc.
Qed.

Lemma apply_pushes_front (xs0 xs : list T) :
  apply_pushes xs0 (PushFront <$> xs) = reverse xs ++ xs0.
Proof.
  revert xs0. induction xs as [|x xs IH]; intros xs0; [done|].
  rewrite fmap_cons, apply_pushes_cons, IH, reverse_cons.
  by rewrite <-app_assoc.
Qed.

(** [n] calls of [pop_back] return the first [n] items, first to last. *)
Lemma pop_back_n_rep h this cs1 cs2 :
  rep h this (cs1 ++ cs2) →
  ∃ h' this',
    pop_back_n (length cs1) h this = Ok (h', this', cs1.*2)
    ∧ rep h' this' cs2.
Proof.
  revert h this. induction cs1 as [|c cs1 IH]; intros h this Hrep.
  - by exists h, this.
  - destruct (pop_back_rep h this c (cs1 ++ cs2) Hrep) as
      (h1 & this1 & Hpop & Hrep1 & _).
    destruct (IH h1 this1 Hrep1) as (h2 & this2 & Hpops & Hrep2).
    exists h2, this2. split; [|done].
    simpl. rewrite Hpop. simpl. by rewrite Hpops.
Qed.

(** [n] calls of [pop_front] return the last [n] items, last to first. *)
Lemma pop_front_n_rep h this cs1 cs2 :
  rep h this (cs1 ++ cs2) →
  ∃ h' this',
    pop_front_n (length cs2) h this = Ok (h', this', reverse cs2.*2)
    ∧ rep h' this' cs1.
Proof.
  revert h this.
  induction cs2 as [|c cs2 IH] using rev_ind; intros h this Hrep.
  - rewrite app_nil_r in Hrep. by exists h, this.
  - rewrite app_assoc in Hrep.
    destruct (pop_front_rep h this (cs1 ++ cs2) c Hrep) as
      (h1 & this1 & Hpop & Hrep1 & _).
    destruct (IH h1 this1 Hrep1) as (h2 & this2 & Hpops & Hrep2).
    exists h2, this2. split; [|done].
    rewrite length_app, Nat.add_comm. simpl. rewrite Hpop. simpl.
    rewrite Hpops. simpl. by rewrite fmap_app, reverse_app.
Qed.


(** ** Move, swap and assignment *)

Lemma move_ctor_rep h other cs :
  rep h other cs →
  rep h (move_ctor other).1 cs ∧ (move_ctor other).2 = empty_list.
Proof. intros Hrep. split; [|done]. by destruct other. Qed.

Lemma swap_rep h this rhs cs1 cs2 :
  rep h this cs1 → rep h rhs cs2 →
  rep h (swap this rhs).1 cs2 ∧ rep h (swap this rhs).2 cs1.
Proof. intros H1 H2. by destruct this, rhs. Qed.

(** ** From the representation to the listed invariants *)

Lemma last_fmap_fst cs : last cs.*1 = last_loc None cs.
Proof. unfold last_loc. rewrite fmap_last. by destruct (last cs). Qed.

Lemma dseg_next_path h p cs :
  dseg h p cs None → next_path h (hd_loc cs None) cs.*1.
Proof.
  revert p. induction cs as [|c cs IH]; intros p Hseg.
  - constructor.
  - destruct Hseg as [Hc Hseg]. rewrite fmap_cons. simpl.
    econstructor; [exact Hc|]. simpl. by eapply IH.
Qed.

Lemma dseg_next_previous h p cs a n b :
  dseg h p cs None → a ∈ cs.*1 → h !! a = Some n → next n = Some b →
  ∃ nb, h !! b = Some nb ∧ previous nb = Some a.
Proof.
  revert p. induction cs as [|c cs IH]; intros p Hseg Ha Hn Hnext.
  - by apply elem_of_nil in Ha.
  - destruct Hseg as [Hc Hseg]. rewrite fmap_cons in Ha.
    apply elem_of_cons in Ha as [->|Ha]; [|by eapply IH].
    rewrite Hc in Hn. injection Hn as <-. simpl in Hnext.
    destruct cs as [|c1 cs]; [done|]. simpl in Hnext. injection Hnext as <-.
    destruct Hseg as [Hc1 _]. by eexists.
Qed.

Lemma dseg_previous_next h p cs q a n b :
  dseg h p cs q → a ∈ cs.*1 → h !! a = Some n → previous n = Some b →
  (hd_loc cs q = Some a ∧ p = Some b)
  ∨ ∃ nb, h !! b = Some nb ∧ next nb = Some a.
Proof.
  revert p. induction cs as [|c cs IH]; intros p Hseg Ha Hn Hprev.
  - by apply elem_of_nil in Ha.
  - destruct Hseg as [Hc Hseg]. rewrite fmap_cons in Ha.
    destruct (decide (a = c.1)) as [->|Hne].
    + rewrite Hc in Hn. injection Hn as <-. simpl in Hprev. by left.
    + apply elem_of_cons in Ha as [->|Ha]; [done|].
      destruct (IH _ Hseg Ha Hn Hprev) as [[Hhd [= <-]]|Hright]; [|by right].
      right. eexists. split; [exact Hc|]. simpl.
      destruct cs as [|c1 cs]; [by apply elem_of_nil in Ha|]. done.
Qed.

Lemma rep_invariants h this cs : rep h this cs → invariants h this.
Proof.
  intros Hrep.
  pose proof (rep_empty _ _ _ Hrep) as Hempty.
  destruct Hrep as (Hnd & Hseg & Hb & Hf & Hn & Hlt).
  unfold list_first, list_last, size.
  split; unfold list_first, list_last, size.
  - rewrite Hb, Hf. destruct cs as [|c cs]; [done|].
    rewrite last_loc_cons. split; [done|].
    intros Hlast. exfalso. revert Hlast. unfold last_loc.
    by destruct (last cs).
  - rewrite Hf, Hn. destruct cs as [|c cs]; [done|].
    rewrite length_cons. split; [|lia].
    unfold last_loc. rewrite last_cons. by destruct (last cs).
  - rewrite Hempty, Hn. rewrite bool_decide_eq_true.
    destruct cs as [|c cs]; [done|]. rewrite length_cons. split; [done|lia].
  - exists cs.*1. rewrite Hb, Hf. split_and!.
    + by eapply dseg_next_path.
    + apply last_fmap_fst.
    + by rewrite length_fmap.
    + intros a n b Ha Hna Hnext. by eapply dseg_next_previous.
    + intros a n b Ha Hna Hprev.
      destruct (dseg_previous_next _ _ _ _ _ _ _ Hseg Ha Hna Hprev)
        as [[_ [=]]|Hright]; done.
  - rewrite Hn, Hb, Hf. intros Hone.
    destruct cs as [|c [|c1 cs]]; [done| |rewrite !length_cons in Hone; lia].
    destruct Hseg as [Hc _]. by eexists c.1, _.
Qed.


(** The store and the handle determine the chain. *)
Lemma dseg_unique h p cs1 cs2 :
  dseg h p cs1 None → dseg h p cs2 None →
  hd_loc cs1 None = hd_loc cs2 None → cs1 = cs2.
Proof.
  revert p cs2. induction cs1 as [|c1 cs1 IH]; intros p cs2 Hseg1 Hseg2 Hhd.
  - by destruct cs2.
  - destruct cs2 as [|c2 cs2]; [done|]. simpl in Hhd. injection Hhd as Hloc.
    destruct Hseg1 as [Hc1 Hseg1]. destruct Hseg2 as [Hc2 Hseg2].
    rewrite Hloc, Hc2 in Hc1. injection Hc1 as Hitem Hnext.
    rewrite <-Hloc in Hseg2.
    rewrite (IH _ cs2 Hseg1 Hseg2) by done.
    f_equal. destruct c1, c2; simpl in *. by subst.
Qed.

Lemma rep_unique h this cs1 cs2 : rep h this cs1 → rep h this cs2 → cs1 = cs2.
Proof.
  intros (_ & Hseg1 & Hb1 & _) (_ & Hseg2 & Hb2 & _).
  eapply dseg_unique; [done|done|]. by rewrite <-Hb1, <-Hb2.
Qed.

Lemma apart_intro h this other cs1 cs2 :
  rep h this cs1 → rep h other cs2 → separate cs1 cs2 → apart h this other.
Proof.
  intros Hrep1 Hrep2 Hsep cs1' cs2' Hrep1' Hrep2'.
  by rewrite (rep_unique _ _ _ _ Hrep1' Hrep1), (rep_unique _ _ _ _ Hrep2' Hrep2).
Qed.

Lemma well_formed_intro h this cs : rep h this cs → well_formed h this.
Proof. intros Hrep. split; [by eapply rep_invariants|by exists cs]. Qed.

End representation.

(** * The claims *)

Section claims.
Context {T : Type} {T_eq : EqDecision T} {T_init : DefaultConstructible T}.
Implicit Types (h : gmap loc (doubly_linked_node T)).
Implicit Types (cs : list (loc * T)) (this rhs other : doubly_linked_list).
Implicit Types (xs ys : list T) (ops : list (push_op T)).

(** ** Ends of the list: pushes, pops, peeks and iteration *)

(** What the four end operations do to the sequence a list holds:
    [push_front] and [pop_back] work at its first item, [push_back] and
    [pop_front] at its last. *)
Lemma push_front_holds h this xs x h' this' :
  holds h this xs → push_front h this x = Ok (h', this') →
  holds h' this' (x :: xs).
Proof.
  intros (cs & Hrep & <-) Hok.
  destruct (push_front_Ok _ _ _ _ _ _ Hrep Hok) as (a & _ & Hrep').
  by exists ((a, x) :: cs).
Qed.

Lemma push_back_holds h this xs x h' this' :
  holds h this xs → push_back h this x = Ok (h', this') →
  holds h' this' (xs ++ [x]).
Proof.
  intros (cs & Hrep & <-) Hok.
  destruct (push_back_Ok _ _ _ _ _ _ Hrep Hok) as (a & _ & Hrep').
  exists (cs ++ [(a, x)]). split; [done|]. by rewrite fmap_app.
Qed.

(** [pop_back] returns the first item of the forward order and leaves the
    rest. *)
Lemma pop_back_holds h this x xs :
  holds h this (x :: xs) →
  ∃ h' this', pop_back h this = Ok (h', this', x) ∧ holds h' this' xs.
Proof.
  intros (cs & Hrep & Hitems).
  destruct cs as [|c cs]; [done|]. injection Hitems as <- <-.
  destruct (pop_back_rep _ _ _ _ Hrep) as (h' & this' & Hpop & Hrep' & _).
  exists h', this'. split; [done|]. by exists cs.
Qed.

(** [pop_front] returns the last item of the forward order and leaves the
    rest. *)
Lemma pop_front_holds h this xs x :
  holds h this (xs ++ [x]) →
  ∃ h' this', pop_front h this = Ok (h', this', x) ∧ holds h' this' xs.
Proof.
  intros (cs & Hrep & Hitems).
  destruct cs as [|c cs _] using rev_ind.
  { by destruct xs. }
  rewrite fmap_app in Hitems. apply app_inj_tail in Hitems as [<- <-].
  destruct (pop_front_rep _ _ _ _ Hrep) as (h' & this' & Hpop & Hrep' & _).
  exists h', this'. split; [done|]. by exists cs.
Qed.

(** [peek_back] returns the first item of the forward order, [peek_front]
    the last. *)
Lemma peek_holds h this x xs y :
  holds h this (x :: xs) → list.last (x :: xs) = Some y →
  peek_back h this = Ok x ∧ peek_front h this = Ok y.
Proof.
  intros (cs & Hrep & Hitems) Hlast.
  split.
  - destruct cs as [|c cs]; [done|]. injection Hitems as <- _.
    by eapply peek_back_rep.
  - destruct cs as [|c cs _] using rev_ind; [done|].
    rewrite <-Hitems, fmap_last, last_snoc in Hlast. injection Hlast as <-.
    by eapply peek_front_rep.
Qed.

(** The round trip of the tests, for every sequence of values: pushed with
    [push_front], they come back reversed from [pop_back] and in the order of
    the pushes from [pop_front]. *)
Lemma push_front_all_then_pops h xs :
  Z.of_nat (live_nodes h) + Z.of_nat (length xs) ≤ max_live_nodes →
  ∃ h1 l1,
    push_front_all h empty_list xs = Ok (h1, l1)
    ∧ (∃ h2 l2, pop_back_n (length xs) h1 l1 = Ok (h2, l2, reverse xs))
    ∧ (∃ h2 l2, pop_front_n (length xs) h1 l1 = Ok (h2, l2, xs)).
Proof.
  intros Hroom.
  destruct (run_pushes_rep h empty_list [] (PushFront <$> xs) (rep_nil h))
    as (h1 & l1 & cs & Hrun & Hrep & Hitems & _).
  { by rewrite length_fmap. }
  rewrite apply_pushes_front, app_nil_r in Hitems.
  assert (length cs = length xs) as Hlen.
  { by rewrite <-(length_fmap snd cs), Hitems, length_reverse. }
  exists h1, l1. rewrite push_front_all_run. split_and!; [done|..].
  - destruct (pop_back_n_rep h1 l1 cs []) as (h2 & l2 & Hpop & _).
    { by rewrite app_nil_r. }
    exists h2, l2. by rewrite <-Hlen, Hpop, Hitems.
  - destruct (pop_front_n_rep h1 l1 [] cs Hrep) as (h2 & l2 & Hpop & _).
    exists h2, l2. by rewrite <-Hlen, Hpop, Hitems, reverse_involutive.
Qed.

End claims.

(** C1: [pop_front] should remove and return the head (the first element of
    the forward iteration) and [pop_back] the tail.  After [push_back] of 1, 2
    and 3 the forward iteration is 1, 2, 3, yet [pop_front] returns 3 and
    leaves 1, 2, and the following [pop_back] returns 1 and leaves 2; three
    values pushed with [push_front] come back reversed from [pop_back] and in
    their original order from [pop_front], the opposite of what the tests
    [push_front_pop_back] and [push_front_pop_front] require. *)
Theorem pops_take_the_opposite_ends :
  scenario_push_back_then_pops = Ok ([1; 2; 3], 3, [1; 2], 1, [2], 1)
  ∧ push_front_then_pop_back [1; 2; 3] = Ok [3; 2; 1]
  ∧ push_front_then_pop_front [1; 2; 3] = Ok [1; 2; 3].
Proof. by vm_compute. Qed.

Section iteration_claims.
Context {T : Type} {T_eq : EqDecision T} {T_init : DefaultConstructible T}.
Implicit Types (h : gmap loc (doubly_linked_node T)).
Implicit Types (cs : list (loc * T)) (this rhs other : doubly_linked_list).
Implicit Types (xs ys : list T) (ops : list (push_op T)).

(** Iterating a list that holds [xs]: from [begin()] up to the null iterator
    the items are visited first to last, for every list; with [end()] as the
    bound of the loop this needs the list to have a node. *)
Lemma visit_range_holds fuel h this xs :
  holds h this xs → (length xs ≤ fuel)%nat →
  visit_range fuel h (begin this) None = Ok xs.
Proof.
  intros (cs & (_ & Hseg & Hb & _) & <-) Hfuel. rewrite length_fmap in Hfuel.
  unfold begin, list_first. rewrite Hb. by eapply visit_range_dseg.
Qed.

Lemma forward_iteration_holds fuel h this xs :
  holds h this xs → (length xs ≤ fuel)%nat →
  forward_iteration fuel h this
  = match xs with [] => Undefined | _ :: _ => Ok xs end.
Proof.
  intros (cs & Hrep & <-) Hfuel. rewrite length_fmap in Hfuel.
  destruct cs as [|c cs].
  - by apply forward_iteration_rep_nil.
  - by apply forward_iteration_rep.
Qed.

Lemma reverse_iteration_holds fuel h this xs :
  holds h this xs → (length xs ≤ fuel)%nat →
  reverse_iteration fuel h this
  = match xs with [] => Undefined | _ :: _ => Ok (reverse xs) end.
Proof.
  intros (cs & Hrep & <-) Hfuel. rewrite length_fmap in Hfuel.
  destruct cs as [|c cs].
  - apply rep_nil_inv in Hrep as ->. done.
  - by apply (reverse_iteration_rep fuel h this (c :: cs)).
Qed.

(** C2: pushing a sequence [xs] into an empty list with [push_back] and then
    iterating from [begin()] to [end()] should yield [xs], and with
    [push_front] the reverse of [xs].  It does for every sequence with an
    element; for the empty sequence the list is still empty and the loop does
    not start, because [end()] dereferences the null pointer [last()]
    returns. *)
Theorem push_all_then_forward_iteration h xs :
  Z.of_nat (live_nodes h) + Z.of_nat (length xs) ≤ max_live_nodes →
  ∃ h1 l1 h2 l2,
    push_back_all h empty_list xs = Ok (h1, l1)
    ∧ forward_iteration (length xs) h1 l1
      = match xs with [] => Undefined | _ :: _ => Ok xs end
    ∧ push_front_all h empty_list xs = Ok (h2, l2)
    ∧ forward_iteration (length xs) h2 l2
      = match xs with [] => Undefined | _ :: _ => Ok (reverse xs) end.
Proof.
  intros Hroom.
  destruct (run_pushes_rep h empty_list [] (PushBack <$> xs) (rep_nil h))
    as (h1 & l1 & cs1 & Hrun1 & Hrep1 & Hitems1 & _).
  { by rewrite length_fmap. }
  destruct (run_pushes_rep h empty_list [] (PushFront <$> xs) (rep_nil h))
    as (h2 & l2 & cs2 & Hrun2 & Hrep2 & Hitems2 & _).
  { by rewrite length_fmap. }
  rewrite apply_pushes_back in Hitems1.
  rewrite apply_pushes_front, app_nil_r in Hitems2. simpl in Hitems1.
  exists h1, l1, h2, l2.
  rewrite push_back_all_run, push_front_all_run. split_and!; [done| |done|].
  - rewrite (forward_iteration_holds _ _ _ xs); [done| |done].
    by exists cs1.
  - rewrite (forward_iteration_holds _ _ _ (reverse xs)).
    + destruct xs as [|x xs]; [done|]. rewrite reverse_cons.
      by destruct (reverse xs).
    + by exists cs2.
    + by rewrite length_reverse.
Qed.

(** C4: [begin()], [end()], [rbegin()] and [rend()] should be well defined
    on every list, with [begin() == end()] and [rbegin() == rend()] on the
    empty one.  On the empty list [begin()] and [rbegin()] are the null
    iterator, but [end()] and [rend()] dereference the null pointer that
    [last()], respectively [first()], returns, and so does a loop from
    [begin()] to [end()] or from [rbegin()] to [rend()]. *)
Theorem end_of_empty_list_dereferences_null fuel h :
  begin empty_list = None
  ∧ rbegin empty_list = None
  ∧ end_ h empty_list = Undefined
  ∧ rend h empty_list = Undefined
  ∧ forward_iteration fuel h empty_list = Undefined
  ∧ reverse_iteration fuel h empty_list = Undefined.
Proof. by split_and!. Qed.

(** On a list with a node the four accessors are defined, [end()] and
    [rend()] are the null iterator, and the two loops visit every item once,
    first to last and last to first. *)
Lemma ranges_of_nonempty_list fuel h this x xs :
  holds h this (x :: xs) → (length (x :: xs) ≤ fuel)%nat →
  end_ h this = Ok None
  ∧ rend h this = Ok None
  ∧ forward_iteration fuel h this = Ok (x :: xs)
  ∧ reverse_iteration fuel h this = Ok (reverse (x :: xs)).
Proof.
  intros Hholds Hfuel.
  pose proof (forward_iteration_holds fuel h this _ Hholds Hfuel) as Hfwd.
  pose proof (reverse_iteration_holds fuel h this _ Hholds Hfuel) as Hrev.
  destruct Hholds as (cs & Hrep & Hitems).
  destruct cs as [|c cs]; [done|].
  split_and!; [|by eapply rend_rep|done|done].
  destruct (c :: cs) as [|c' cs' _] using rev_ind; [done|].
  by eapply end_rep.
Qed.

(** C5: iterator equality should be defined for every pair of iterators, a
    sentinel and a non-sentinel comparing unequal in either order.  With the
    null iterator on the left and a node on the right, [operator==] passes
    both null tests and dereferences the null pointer; with the null iterator
    on the right it returns [false], and two null iterators are equal. *)
Theorem null_iterator_on_the_left_is_dereferenced h (a : loc) :
  iterator_eq h None (Some a) = Undefined
  ∧ reverse_iterator_eq h None (Some a) = Undefined
  ∧ iterator_ne h None (Some a) = Undefined
  ∧ iterator_eq h None None = Ok true
  ∧ reverse_iterator_eq h None None = Ok true
  ∧ iterator_eq h (Some a) None = Ok false
  ∧ reverse_iterator_eq h (Some a) None = Ok false.
Proof. by split_and!. Qed.

(** Between two nodes of the store the comparison is on the items. *)
Lemma iterator_eq_nodes h (a b : loc) n1 n2 :
  h !! a = Some n1 → h !! b = Some n2 →
  iterator_eq h (Some a) (Some b) = Ok (bool_decide (item n1 = item n2))
  ∧ reverse_iterator_eq h (Some a) (Some b)
    = Ok (bool_decide (item n1 = item n2)).
Proof.
  intros Ha Hb. unfold iterator_eq, reverse_iterator_eq, deref. simpl.
  by rewrite Ha, Hb.
Qed.

End iteration_claims.

Lemma push_all_then_forward_iteration_empty :
  Z.of_nat (live_nodes (∅ : gmap loc (doubly_linked_node Z)))
    + Z.of_nat (length ([] : list Z)) ≤ max_live_nodes
  ∧ ∃ h1 l1 h2 l2,
      push_back_all ∅ empty_list ([] : list Z) = Ok (h1, l1)
      ∧ forward_iteration 0 h1 l1 = Undefined
      ∧ push_front_all ∅ empty_list ([] : list Z) = Ok (h2, l2)
      ∧ forward_iteration 0 h2 l2 = Undefined.
Proof.
  split; [by vm_compute|].
  apply (push_all_then_forward_iteration (T:=Z) ∅ []). by vm_compute.
Defined.

(** C3: [peek_front] should return the item at the head (the end
    [push_front] works on, the first element of the forward iteration) and
    [peek_back] the item at the tail.  After [push_back] of 1, 2 and 3 the
    forward iteration starts at 1, yet [peek_front] returns 3 and [peek_back]
    returns 1; a following [push_front(0)] changes what [peek_back] returns
    and a following [push_back(4)] what [peek_front] returns. *)
Theorem peeks_read_the_opposite_ends :
  scenario_peeks = Ok (1, 3, 1, (3, 0), (4, 0)).
Proof. by vm_compute. Qed.

Section value_claims.
Context {T : Type} {T_eq : EqDecision T} {T_init : DefaultConstructible T}.
Implicit Types (h : gmap loc (doubly_linked_node T)).
Implicit Types (cs : list (loc * T)) (this rhs other : doubly_linked_list).
Implicit Types (xs ys : list T) (ops : list (push_op T)).

Lemma length_apply_pushes xs ops :
  length (apply_pushes xs ops) = (length xs + length ops)%nat.
Proof.
  revert xs. induction ops as [|[x|x] ops IH]; intros xs.
  - simpl. lia.
  - rewrite apply_pushes_cons, IH. simpl. lia.
  - rewrite apply_pushes_cons, IH, length_app. simpl. lia.
Qed.

(** C6: on an empty list [pop_front] and [pop_back] return [T()] and change
    neither the store nor the list, which stays in the canonical empty state:
    both links null, [size() == 0], [empty()] true; no error is raised. *)
Theorem pop_on_empty_list h this :
  empty this = true →
  pop_front h this = Ok (h, this, value_init)
  ∧ pop_back h this = Ok (h, this, value_init)
  ∧ front this = None ∧ back this = None ∧ size this = 0.
Proof.
  intros Hempty. unfold pop_front, pop_back. rewrite Hempty.
  unfold empty in Hempty.
  apply andb_prop in Hempty as [[Hf Hb]%andb_prop Hn].
  apply bool_decide_eq_true in Hf, Hb, Hn. by split_and!.
Qed.

(** C7: [==] on two lists returns whether they hold the same items in the
    same order; hence a list equals itself, two lists built by one sequence
    of pushes are equal, and an empty list differs from one with a node.  The
    comparison is [equals] from the two [first()] nodes: two null nodes are
    equal, a null and a non-null node are not, and two nodes are equal when
    their items are and their [next] nodes are equal in turn. *)
Theorem list_equality_compares_items fuel h this rhs xs ys :
  holds h this xs → holds h rhs ys → (length xs ≤ fuel)%nat →
  op_eq fuel h this rhs = Ok (bool_decide (xs = ys))
  ∧ op_ne fuel h this rhs = Ok (negb (bool_decide (xs = ys)))
  ∧ op_eq fuel h this this = Ok true
  ∧ (xs = [] → ys ≠ [] →
     op_eq fuel h this rhs = Ok false ∧ op_eq fuel h rhs this = Ok false)
  ∧ (∀ ops,
       (length ops ≤ fuel)%nat →
       Z.of_nat (live_nodes h) + 2 * Z.of_nat (length ops) ≤ max_live_nodes →
       ∃ h1 l1 h2 l2,
         run_pushes h empty_list ops = Ok (h1, l1)
         ∧ run_pushes h1 empty_list ops = Ok (h2, l2)
         ∧ op_eq fuel h2 l1 l2 = Ok true)
  ∧ op_eq fuel h this rhs = equals fuel h (list_first this) (list_first rhs)
  ∧ (∀ node1 node2,
       equals fuel h node1 node2 =
       if bool_decide (node1 = None) && bool_decide (node2 = None)
       then Ok true
       else if bool_decide (node1 = None) || bool_decide (node2 = None)
       then Ok false
       else
         n1 ← deref h node1;
         n2 ← deref h node2;
         if bool_decide (item n1 = item n2) then
           match fuel with
           | O => OutOfFuel
           | S fuel => equals fuel h (next n1) (next n2)
           end
         else Ok false).
Proof.
  intros (cs1 & Hrep1 & Hitems1) (cs2 & Hrep2 & Hitems2) Hfuel.
  assert (length cs1 ≤ fuel)%nat as Hfuel1.
  { by rewrite <-(length_fmap snd cs1), Hitems1. }
  pose proof (op_eq_rep fuel h this rhs cs1 cs2 Hrep1 Hrep2 Hfuel1) as Heq.
  rewrite Hitems1, Hitems2 in Heq.
  split_and!.
  - done.
  - unfold op_ne. by rewrite Heq.
  - rewrite (op_eq_rep fuel h this this cs1 cs1) by done.
    by rewrite bool_decide_eq_true_2.
  - intros -> Hne. split.
    + rewrite Heq. by rewrite bool_decide_eq_false_2.
    + destruct cs1 as [|c1 cs1]; [|done]. destruct cs2 as [|c2 cs2].
      { by rewrite <-Hitems2 in Hne. }
      destruct Hrep1 as (_ & _ & Hb1 & _). destruct Hrep2 as (_ & _ & Hb2 & _).
      unfold op_eq. rewrite Hb1, Hb2, equals_unfold. done.
  - intros ops Hlen Hroom.
    destruct (run_pushes_rep h empty_list [] ops (rep_nil h)) as
      (h1 & l1 & new1 & Hrun1 & Hnew1 & Hit1 & _ & _ & Hsize1); [lia|].
    destruct (run_pushes_rep h1 empty_list [] ops (rep_nil h1)) as
      (h2 & l2 & new2 & Hrun2 & Hnew2 & Hit2 & Hframe2 & _); [lia|].
    exists h1, l1, h2, l2. split_and!; [done|done|].
    assert (rep h2 l1 new1) as Hnew1'.
    { eapply rep_frame; [|exact Hnew1]. intros a Ha. apply Hframe2.
      - destruct Hnew1 as (_ & Hseg & _). by eapply dseg_is_Some.
      - intros Hin. by apply elem_of_nil in Hin. }
    assert (length new1 ≤ fuel)%nat as Hfuel'.
    { rewrite <-(length_fmap snd new1), Hit1, length_apply_pushes. simpl. lia. }
    rewrite (op_eq_rep fuel h2 l1 l2 new1 new2) by done.
    rewrite Hit1, Hit2. by rewrite bool_decide_eq_true_2.
  - done.
  - intros node1 node2. apply equals_unfold.
Qed.

End value_claims.

(** The store [store_ab] represents the two lists, which share no node. *)
Lemma rep_list_a : rep store_ab list_a cells_a.
Proof.
  unfold rep. split_and!; try by vm_compute.
  apply NoDup_cons. split; [|apply NoDup_singleton].
  by intros ?%list_elem_of_singleton.
Qed.

Lemma rep_list_b : rep store_ab list_b cells_b.
Proof.
  unfold rep. split_and!; try by vm_compute.
  apply NoDup_singleton.
Qed.

Lemma separate_cells_a_b : separate cells_a cells_b.
Proof.
  intros a Ha Hb. revert Ha Hb. unfold cells_a, cells_b. simpl.
  rewrite !elem_of_cons, !elem_of_nil. intros [->|[->|[]]] [?|[]]; done.
Qed.

Lemma pop_on_empty_list_example :
  empty empty_list = true
  ∧ pop_front (T:=Z) ∅ empty_list = Ok (∅, empty_list, 0)
  ∧ pop_back (T:=Z) ∅ empty_list = Ok (∅, empty_list, 0).
Proof.
  split; [reflexivity|].
  destruct (pop_on_empty_list (T:=Z) ∅ empty_list) as (Hf & Hb & _);
    [reflexivity|].
  split; [exact Hf|exact Hb].
Defined.

Lemma list_equality_compares_items_example :
  holds store_ab list_a [1; 2] ∧ holds store_ab list_b [3]
  ∧ (length [1; 2] ≤ 2)%nat
  ∧ op_eq 2 store_ab list_a list_b = Ok false
  ∧ op_ne 2 store_ab list_a list_b = Ok true
  ∧ op_eq 2 store_ab list_a list_a = Ok true.
Proof.
  assert (holds store_ab list_a [1; 2]) as Ha.
  { exists cells_a. split; [exact rep_list_a|reflexivity]. }
  assert (holds store_ab list_b [3]) as Hb.
  { exists cells_b. split; [exact rep_list_b|reflexivity]. }
  assert (length [1; 2] ≤ 2)%nat as Hfuel by (simpl; lia).
  destruct (list_equality_compares_items 2 store_ab list_a list_b [1; 2] [3]
              Ha Hb Hfuel) as (Heq & Hne & Hrefl & _).
  split_and!; [exact Ha|exact Hb|exact Hfuel|exact Heq|exact Hne|exact Hrefl].
Defined.

Section concatenation_claims.
Context {T : Type} {T_eq : EqDecision T} {T_init : DefaultConstructible T}.
Implicit Types (h : gmap loc (doubly_linked_node T)).
Implicit Types (cs : list (loc * T)) (this rhs other : doubly_linked_list).
Implicit Types (xs ys : list T) (ops : list (push_op T)).

Lemma forward_iteration_same fuel h h' this xs :
  holds h this xs → holds h' this xs → (length xs ≤ fuel)%nat →
  forward_iteration fuel h' this = forward_iteration fuel h this.
Proof.
  intros H1 H2 Hfuel.
  by rewrite (forward_iteration_holds fuel h this xs),
    (forward_iteration_holds fuel h' this xs).
Qed.

(** C8: for two lists that share no node, [A += B] and the member [A + B]
    leave [A] holding its items followed by those of [B], and the free
    [operator+] returns a new list holding them and leaves [A] as it was;
    [B] keeps its handle and its cells, and iterates as before.  Iterating
    the result from [begin()] to [end()] visits these items in this order
    when the result has a node.  When [A] and [B] are both empty the result
    is empty, and the loop from [begin()] to [end()] over it, which should
    visit nothing, dereferences the null pointer in [end()]. *)
Theorem concatenation_appends_right_operand fuel h this rhs xs ys :
  holds h this xs → holds h rhs ys → apart h this rhs →
  (length xs + length ys ≤ fuel)%nat →
  Z.of_nat (live_nodes h) + 2 * Z.of_nat (length xs + length ys)
    ≤ max_live_nodes →
  (∃ h' this',
     op_plus_assign fuel h this rhs = Ok (h', this')
     ∧ op_plus fuel h this rhs = Ok (h', this')
     ∧ holds h' this' (xs ++ ys)
     ∧ visit_range fuel h' (begin this') None = Ok (xs ++ ys)
     ∧ (xs ++ ys ≠ [] → forward_iteration fuel h' this' = Ok (xs ++ ys))
     ∧ (xs ++ ys = [] → forward_iteration fuel h' this' = Undefined)
     ∧ (∀ cs, rep h rhs cs → rep h' rhs cs)
     ∧ forward_iteration fuel h' rhs = forward_iteration fuel h rhs)
  ∧ (∃ h' sum,
     free_op_plus fuel h this rhs = Ok (h', sum)
     ∧ holds h' sum (xs ++ ys)
     ∧ visit_range fuel h' (begin sum) None = Ok (xs ++ ys)
     ∧ (xs ++ ys ≠ [] → forward_iteration fuel h' sum = Ok (xs ++ ys))
     ∧ (xs ++ ys = [] → forward_iteration fuel h' sum = Undefined)
     ∧ holds h' this xs
     ∧ holds h' rhs ys
     ∧ forward_iteration fuel h' rhs = forward_iteration fuel h rhs).
Proof.
  intros (cs1 & Hrep1 & Hitems1) (cs2 & Hrep2 & Hitems2) Hapart Hfuel Hroom.
  assert (length cs1 = length xs) as Hlen1.
  { by rewrite <-Hitems1, length_fmap. }
  assert (length cs2 = length ys) as Hlen2.
  { by rewrite <-Hitems2, length_fmap. }
  assert (Hiter : ∀ h' l,
    holds h' l (xs ++ ys) →
    visit_range fuel h' (begin l) None = Ok (xs ++ ys)
    ∧ (xs ++ ys ≠ [] → forward_iteration fuel h' l = Ok (xs ++ ys))
    ∧ (xs ++ ys = [] → forward_iteration fuel h' l = Undefined)).
  { intros h' l Hl. split_and!.
    - apply visit_range_holds; [done|]. rewrite length_app. lia.
    - intros Hne. rewrite (forward_iteration_holds fuel h' l (xs ++ ys));
        [|done|rewrite length_app; lia].
      by destruct (xs ++ ys).
    - intros Hnil. rewrite (forward_iteration_holds fuel h' l (xs ++ ys));
        [|done|rewrite length_app; lia].
      by rewrite Hnil. }
  split.
  - destruct (op_plus_assign_rep fuel h this rhs cs1 cs2 Hrep1 Hrep2
                (Hapart _ _ Hrep1 Hrep2)) as
      (h' & this' & new & Hplus & Hrep' & Hnew & Hframe & _); [lia|lia|].
    assert (holds h' this' (xs ++ ys)) as Hholds.
    { exists (cs1 ++ new). split; [done|].
      by rewrite fmap_app, Hnew, Hitems1, Hitems2. }
    assert (Hkeep : ∀ cs, rep h rhs cs → rep h' rhs cs).
    { intros cs Hrep. eapply rep_frame; [|exact Hrep].
      intros a Ha. apply Hframe.
      - destruct Hrep as (_ & Hseg & _). by eapply dseg_is_Some.
      - intros Hin. by apply (Hapart _ _ Hrep1 Hrep a). }
    exists h', this'. destruct (Hiter h' this' Hholds) as (Hvisit & Hfwd & Hnil).
    split_and!; try done.
    apply (forward_iteration_same fuel h h' rhs ys); [| |lia].
    + by exists cs2.
    + exists cs2. split; [by apply Hkeep|done].
  - destruct (free_op_plus_rep fuel h this rhs cs1 cs2 Hrep1 Hrep2) as
      (h' & sum & new & Hplus & Hrep' & Hnew & Hthis & Hrhs); [lia|lia|].
    assert (holds h' sum (xs ++ ys)) as Hholds.
    { exists new. split; [done|]. by rewrite Hnew, Hitems1, Hitems2. }
    exists h', sum. destruct (Hiter h' sum Hholds) as (Hvisit & Hfwd & Hnil).
    split_and!; try done.
    + by exists cs1.
    + by exists cs2.
    + apply (forward_iteration_same fuel h h' rhs ys); [| |lia]; by exists cs2.
Qed.

(** C10: [A += A] on a list with a node should return, leaving [A] with its
    items twice.  The loop reads [node->next] after each push, and the push
    has just given the last node of [A] a successor: whatever the number of
    turns allowed, the loop is still running, or [std::make_shared] has run
    out of memory; it never returns.  The same holds of the member
    [A + A]. *)
Theorem self_append_never_returns fuel h this xs :
  holds h this xs → xs ≠ [] →
  (op_plus_assign fuel h this this = OutOfFuel
   ∨ op_plus_assign fuel h this this = BadAlloc)
  ∧ (op_plus fuel h this this = OutOfFuel
     ∨ op_plus fuel h this this = BadAlloc).
Proof.
  intros (cs & Hrep & <-) Hne.
  assert (cs ≠ []) as Hcs by (by intros ->).
  split; by eapply op_plus_assign_self.
Qed.

End concatenation_claims.

Lemma concatenation_appends_right_operand_example :
  holds (T:=Z) ∅ empty_list [] ∧ apart (T:=Z) ∅ empty_list empty_list
  ∧ (∃ h' this',
       op_plus_assign (T:=Z) 1 ∅ empty_list empty_list = Ok (h', this')
       ∧ holds h' this' []
       ∧ forward_iteration 1 h' this' = Undefined)
  ∧ (∃ h' sum,
       free_op_plus (T:=Z) 1 ∅ empty_list empty_list = Ok (h', sum)
       ∧ holds h' sum []
       ∧ forward_iteration 1 h' sum = Undefined)
  ∧ holds store_ab list_a [1; 2] ∧ holds store_ab list_b [3]
  ∧ apart store_ab list_a list_b
  ∧ (∃ h' this',
       op_plus_assign 3 store_ab list_a list_b = Ok (h', this')
       ∧ forward_iteration 3 h' this' = Ok [1; 2; 3]
       ∧ forward_iteration 3 h' list_b = forward_iteration 3 store_ab list_b)
  ∧ (∃ h' sum,
       free_op_plus 3 store_ab list_a list_b = Ok (h', sum)
       ∧ forward_iteration 3 h' sum = Ok [1; 2; 3]
       ∧ forward_iteration 3 h' list_b = forward_iteration 3 store_ab list_b).
Proof.
  assert (holds (T:=Z) ∅ empty_list []) as He.
  { exists []. split; [exact (rep_nil ∅)|reflexivity]. }
  assert (apart (T:=Z) ∅ empty_list empty_list) as Hapart0.
  { exact (apart_intro _ _ _ _ _ (rep_nil ∅) (rep_nil ∅) (separate_nil_l [])). }
  assert (holds store_ab list_a [1; 2]) as Ha.
  { exists cells_a. split; [exact rep_list_a|reflexivity]. }
  assert (holds store_ab list_b [3]) as Hb.
  { exists cells_b. split; [exact rep_list_b|reflexivity]. }
  assert (apart store_ab list_a list_b) as Hapart.
  { exact (apart_intro _ _ _ _ _ rep_list_a rep_list_b separate_cells_a_b). }
  destruct (concatenation_appends_right_operand
              1 ∅ empty_list empty_list [] [] He He Hapart0)
    as ((h0 & this0 & Hplus0 & _ & Hholds0 & _ & _ & Hnil0 & _)
        & (h0' & sum0 & Hplus0' & Hholds0' & _ & _ & Hnil0' & _)).
  { simpl. lia. }
  { by vm_compute. }
  destruct (concatenation_appends_right_operand
              3 store_ab list_a list_b [1; 2] [3] Ha Hb Hapart)
    as ((h1 & this1 & Hplus1 & _ & _ & _ & Hfwd1 & _ & _ & Hsame1)
        & (h2 & sum & Hplus2 & _ & _ & Hfwd2 & _ & _ & _ & Hsame2)).
  { simpl. lia. }
  { by vm_compute. }
  split_and!; [exact He|exact Hapart0| | |exact Ha|exact Hb|exact Hapart| |].
  - exists h0, this0. split_and!; [exact Hplus0|exact Hholds0|].
    apply Hnil0. reflexivity.
  - exists h0', sum0. split_and!; [exact Hplus0'|exact Hholds0'|].
    apply Hnil0'. reflexivity.
  - exists h1, this1. split_and!; [exact Hplus1| |exact Hsame1].
    apply Hfwd1. discriminate.
  - exists h2, sum. split_and!; [exact Hplus2| |exact Hsame2].
    apply Hfwd2. discriminate.
Defined.

Lemma self_append_never_returns_example :
  holds store_ab list_a [1; 2] ∧ [1; 2] ≠ ([] : list Z)
  ∧ (op_plus_assign 100 store_ab list_a list_a = OutOfFuel
     ∨ op_plus_assign 100 store_ab list_a list_a = BadAlloc).
Proof.
  assert (holds store_ab list_a [1; 2]) as Ha.
  { exists cells_a. split; [exact rep_list_a|reflexivity]. }
  assert ([1; 2] ≠ ([] : list Z)) as Hne by discriminate.
  destruct (self_append_never_returns 100 store_ab list_a [1; 2] Ha Hne)
    as [Hself _].
  split_and!; [exact Ha|exact Hne|exact Hself].
Defined.

Section invariant_claims.
Context {T : Type} {T_eq : EqDecision T} {T_init : DefaultConstructible T}.
Implicit Types (h : gmap loc (doubly_linked_node T)).
Implicit Types (cs : list (loc * T)) (this rhs other : doubly_linked_list).

(** A list keeps its chain when the only nodes written are those of a list
    it shares no node with. *)
Lemma well_formed_frame h h' this other cs1 :
  well_formed h other → apart h this other → rep h this cs1 →
  (∀ b, is_Some (h !! b) → b ∉ cs1.*1 → h' !! b = h !! b) →
  well_formed h' other.
Proof.
  intros (_ & cs2 & Hrep2) Hapart Hrep1 Hframe.
  apply (well_formed_intro h' other cs2).
  eapply rep_frame; [|exact Hrep2]. intros a Ha. apply Hframe.
  - destruct Hrep2 as (_ & Hseg & _). by eapply dseg_is_Some.
  - intros Hin. by apply (Hapart _ _ Hrep1 Hrep2 a).
Qed.

(** C9: the public operations keep the representation invariants.  Stated
    on [well_formed], the listed invariants (the two links null together and
    exactly when the count is 0, as [empty()] tests; the count equal to the
    number of nodes from [first()] to [last()]; [next] and [previous]
    inverse of one another along the chain; the single node of a one-element
    list without neighbours) together with the chain that makes them
    inductive: a well-formed list satisfies the listed invariants, and
    whatever the pushes, pops, [clear], the copy and move constructors,
    [swap] and the concatenations return is well formed again, as is the
    other operand.  When [+=] throws [std::bad_alloc] part way, the list is
    as the [push_back] calls before the failing one left it, and well
    formed.  Copy and move assignment are not among the operations: the
    class's [operator=] cannot be instantiated. *)
Theorem public_operations_keep_invariants fuel h this :
  well_formed h this →
  invariants h this
  ∧ (∀ x h' this',
       push_front h this x = Ok (h', this') → well_formed h' this')
  ∧ (∀ x h' this',
       push_back h this x = Ok (h', this') → well_formed h' this')
  ∧ (∃ h' this' x,
       pop_front h this = Ok (h', this', x) ∧ well_formed h' this')
  ∧ (∃ h' this' x,
       pop_back h this = Ok (h', this', x) ∧ well_formed h' this')
  ∧ (∀ h' this',
       clear fuel h this = Ok (h', this') →
       well_formed h' this' ∧ empty this' = true)
  ∧ (∀ h' copy,
       copy_ctor fuel h this = Ok (h', copy) →
       well_formed h' copy ∧ well_formed h' this)
  ∧ (well_formed h (move_ctor this).1 ∧ well_formed h (move_ctor this).2)
  ∧ (∀ h' this',
       op_plus_assign fuel h this this = Ok (h', this') →
       well_formed h' this')
  ∧ (∀ other,
       well_formed h other →
       (well_formed h (swap this other).1 ∧ well_formed h (swap this other).2)
       ∧ (∀ h' sum,
            free_op_plus fuel h this other = Ok (h', sum) →
            well_formed h' sum ∧ well_formed h' this ∧ well_formed h' other)
       ∧ (apart h this other →
          (∀ h' this',
             op_plus_assign fuel h this other = Ok (h', this') →
             well_formed h' this' ∧ well_formed h' other)
          ∧ (∀ h' this',
               op_plus fuel h this other = Ok (h', this') →
               well_formed h' this' ∧ well_formed h' other)
          ∧ (∀ ys,
               holds h other ys →
               op_plus_assign fuel h this other = BadAlloc →
               ∃ k x h1 this1,
                 ys !! k = Some x
                 ∧ push_back_all h this (take k ys) = Ok (h1, this1)
                 ∧ push_back h1 this1 x = BadAlloc
                 ∧ well_formed h1 this1
                 ∧ well_formed h1 other))).
Proof.
  intros (Hinv & cs & Hrep).
  split_and!.
  - done.
  - intros x h' this' Hok.
    destruct (push_front_Ok _ _ _ _ _ _ Hrep Hok) as (a & _ & Hrep').
    by eapply well_formed_intro.
  - intros x h' this' Hok.
    destruct (push_back_Ok _ _ _ _ _ _ Hrep Hok) as (a & _ & Hrep').
    by eapply well_formed_intro.
  - destruct cs as [|c cs _] using rev_ind.
    + exists h, this, value_init. split; [|by eapply well_formed_intro].
      unfold pop_front. by rewrite (rep_empty _ _ _ Hrep).
    + destruct (pop_front_rep _ _ _ _ Hrep) as (h' & this' & Hpop & Hrep' & _).
      exists h', this', c.2. split; [done|by eapply well_formed_intro].
  - destruct cs as [|c cs].
    + exists h, this, value_init. split; [|by eapply well_formed_intro].
      unfold pop_back. by rewrite (rep_empty _ _ _ Hrep).
    + destruct (pop_back_rep _ _ _ _ Hrep) as (h' & this' & Hpop & Hrep' & _).
      exists h', this', c.2. split; [done|by eapply well_formed_intro].
  - intros h' this' Hok.
    destruct (clear_Ok _ _ _ _ _ _ Hrep Hok) as (-> & Hrep' & _).
    split; [by eapply well_formed_intro|done].
  - intros h' copy Hok.
    destruct (copy_ctor_Ok _ _ _ _ _ _ Hrep Hok) as (new & Hnew & _ & Hframe & _).
    split; [by eapply well_formed_intro|].
    apply (well_formed_intro h' this cs). eapply rep_frame; [|exact Hrep].
    intros a Ha. apply Hframe.
    destruct Hrep as (_ & Hseg & _). by eapply dseg_is_Some.
  - destruct (move_ctor_rep h this cs Hrep) as [Hnew _].
    by eapply well_formed_intro.
  - exact (well_formed_intro h empty_list [] (rep_nil h)).
  - intros h' this' Hok. destruct cs as [|c cs].
    + unfold op_plus_assign in Hok. rewrite (rep_empty _ _ _ Hrep) in Hok.
      simpl in Hok. injection Hok as <- <-. by eapply well_formed_intro.
    + destruct (op_plus_assign_self fuel h this (c :: cs) Hrep) as [H1|H1];
        [done|congruence..].
  - intros other (Hinv2 & cs2 & Hrep2). split_and!.
    + destruct (swap_rep h this other cs cs2 Hrep Hrep2) as [Hfirst _].
      by eapply well_formed_intro.
    + destruct (swap_rep h this other cs cs2 Hrep Hrep2) as [_ Hsecond].
      by eapply well_formed_intro.
    + intros h' sum Hok.
      destruct (free_op_plus_Ok _ _ _ _ _ _ _ _ Hrep Hrep2 Hok)
        as (new & Hnew & _ & Hthis & Hother).
      split_and!; by eapply well_formed_intro.
    + intros Hapart.
      pose proof (Hapart _ _ Hrep Hrep2) as Hsep. split_and!.
      * intros h' this' Hok.
        destruct (op_plus_assign_Ok _ _ _ _ _ _ _ _ Hrep Hrep2 Hsep Hok)
          as (new & Hnew & _ & Hframe & _).
        split; [by eapply well_formed_intro|].
        eapply (well_formed_frame h h' this other cs); try done.
        by eapply well_formed_intro.
      * intros h' this' Hok. unfold op_plus in Hok.
        destruct (op_plus_assign_Ok _ _ _ _ _ _ _ _ Hrep Hrep2 Hsep Hok)
          as (new & Hnew & _ & Hframe & _).
        split; [by eapply well_formed_intro|].
        eapply (well_formed_frame h h' this other cs); try done.
        by eapply well_formed_intro.
      * intros ys (cs2' & Hrep2' & <-) Hbad.
        pose proof (Hapart _ _ Hrep Hrep2') as Hsep'.
        unfold op_plus_assign in Hbad.
        destruct (negb (empty other)); [|done].
        pose proof Hrep2' as (_ & Hseg2 & Hb2 & _). rewrite Hb2 in Hbad.
        destruct (append_loop_BadAlloc fuel h this cs None cs2'
                    Hrep Hseg2 Hsep' Hbad) as
          (k & x & h1 & this1 & new & Hk & Hall & Hthrow & Hrep1 & _ & Hframe).
        exists k, x, h1, this1. split_and!; [done|done|done| |].
        -- by eapply well_formed_intro.
        -- eapply (well_formed_frame h h1 this other cs); try done.
           by eapply well_formed_intro.
Qed.

End invariant_claims.

Lemma public_operations_keep_invariants_example :
  well_formed store_ab list_a
  ∧ invariants store_ab list_a
  ∧ (∃ h' this' x,
       pop_front store_ab list_a = Ok (h', this', x) ∧ well_formed h' this')
  ∧ (∀ h' this',
       op_plus_assign 3 store_ab list_a list_b = Ok (h', this') →
       well_formed h' this' ∧ well_formed h' list_b).
Proof.
  assert (well_formed store_ab list_a) as Ha.
  { exact (well_formed_intro _ _ _ rep_list_a). }
  destruct (public_operations_keep_invariants 3 store_ab list_a Ha)
    as (Hinv & _ & _ & Hpop & _ & _ & _ & _ & _ & Hother).
  destruct (Hother list_b (well_formed_intro _ _ _ rep_list_b))
    as (_ & _ & Hapart).
  destruct (Hapart (apart_intro _ _ _ _ _ rep_list_a rep_list_b
                      separate_cells_a_b)) as (Hplus & _ & _).
  split_and!; [exact Ha|exact Hinv|exact Hpop|exact Hplus].
Defined.

(** ** The end operations on the lists of [store_ab] *)

Lemma holds_list_a : holds store_ab list_a [1; 2].
Proof. exists cells_a. split; [exact rep_list_a|reflexivity]. Qed.

Lemma pop_front_holds_example :
  holds store_ab list_a ([1] ++ [2])
  ∧ ∃ h' this', pop_front store_ab list_a = Ok (h', this', 2)
                ∧ holds h' this' [1].
Proof.
  split; [exact holds_list_a|].
  exact (pop_front_holds store_ab list_a [1] 2 holds_list_a).
Defined.

Lemma pop_back_holds_example :
  holds store_ab list_a (1 :: [2])
  ∧ ∃ h' this', pop_back store_ab list_a = Ok (h', this', 1)
                ∧ holds h' this' [2].
Proof.
  split; [exact holds_list_a|].
  exact (pop_back_holds store_ab list_a 1 [2] holds_list_a).
Defined.

Lemma peek_holds_example :
  holds store_ab list_a (1 :: [2]) ∧ last [1; 2] = Some 2
  ∧ peek_back store_ab list_a = Ok 1 ∧ peek_front store_ab list_a = Ok 2.
Proof.
  split; [exact holds_list_a|]. split; [reflexivity|].
  exact (peek_holds store_ab list_a 1 [2] 2 holds_list_a eq_refl).
Defined.

Lemma ranges_of_nonempty_list_example :
  holds store_ab list_a (1 :: [2]) ∧ (length [1; 2] ≤ 2)%nat
  ∧ end_ store_ab list_a = Ok None
  ∧ rend store_ab list_a = Ok None
  ∧ forward_iteration 2 store_ab list_a = Ok [1; 2]
  ∧ reverse_iteration 2 store_ab list_a = Ok [2; 1].
Proof.
  assert (length [1; 2] ≤ 2)%nat as Hfuel by (simpl; lia).
  split; [exact holds_list_a|]. split; [exact Hfuel|].
  exact (ranges_of_nonempty_list 2 store_ab list_a 1 [2] holds_list_a Hfuel).
Defined.

Lemma push_front_all_then_pops_example :
  Z.of_nat (live_nodes (∅ : gmap loc (doubly_linked_node Z)))
    + Z.of_nat (length [1; 2; 3]) ≤ max_live_nodes
  ∧ ∃ h1 l1,
      push_front_all ∅ empty_list [1; 2; 3] = Ok (h1, l1)
      ∧ (∃ h2 l2, pop_back_n 3 h1 l1 = Ok (h2, l2, [3; 2; 1]))
      ∧ (∃ h2 l2, pop_front_n 3 h1 l1 = Ok (h2, l2, [1; 2; 3])).
Proof.
  assert (Z.of_nat (live_nodes (∅ : gmap loc (doubly_linked_node Z)))
          + Z.of_nat (length [1; 2; 3]) ≤ max_live_nodes) as Hroom
    by (by vm_compute).
  split; [exact Hroom|].
  exact (push_front_all_then_pops (T:=Z) ∅ [1; 2; 3] Hroom).
Defined.

(** * Further properties of the list *)

Section further_lemmas.
Context {T : Type} {T_eq : EqDecision T} {T_init : DefaultConstructible T}.
Implicit Types (h : gmap loc (doubly_linked_node T)).
Implicit Types (cs : list (loc * T)) (p q : option loc).
Implicit Types (this rhs other : doubly_linked_list).
Implicit Types (xs ys : list T) (ops : list (push_op T)).

(** The node of a chain at a given position. *)
Lemma dseg_lookup h p cs q i c :
  dseg h p cs q → cs !! i = Some c →
  h !! c.1 =
  Some {| item := c.2;
          previous := match i with O => p | S j => fst <$> cs !! j end;
          next := match cs !! S i with Some c' => Some c'.1 | None => q end |}.
Proof.
  revert p i. induction cs as [|c0 cs IH]; intros p i Hseg Hi; [done|].
  destruct Hseg as [Hc0 Hseg]. destruct i as [|j].
  - injection Hi as <-. rewrite Hc0. by destruct cs.
  - simpl in Hi. rewrite (IH _ _ Hseg Hi). by destruct j.
Qed.

(** A chain in a store has one handle. *)
Lemma rep_handle_unique h h' this that cs :
  rep h this cs → rep h' that cs → this = that.
Proof.
  intros (_ & _ & Hb & Hf & Hn & _) (_ & _ & Hb' & Hf' & Hn' & _).
  destruct this, that. simpl in *. congruence.
Qed.

(** Counting the nodes of a store from which some were destroyed. *)
Lemma live_nodes_removed h h' (ks : list loc) :
  NoDup ks →
  (∀ a, a ∈ ks → is_Some (h !! a) ∧ h' !! a = None) →
  (∀ b, b ∉ ks → is_Some (h' !! b) ↔ is_Some (h !! b)) →
  live_nodes h = (live_nodes h' + length ks)%nat.
Proof.
  intros Hnd Hin Hout. unfold live_nodes.
  rewrite <-!size_dom, <-(size_list_to_set (C:=gset loc) ks) by done.
  rewrite <-size_union.
  - f_equal. apply set_eq. intros a.
    rewrite elem_of_union, elem_of_list_to_set, !elem_of_dom.
    destruct (decide (a ∈ ks)) as [Ha|Ha].
    + destruct (Hin a Ha). tauto.
    + rewrite (Hout a Ha). tauto.
  - intros a Ha1 Ha2. apply elem_of_list_to_set in Ha2.
    apply elem_of_dom in Ha1 as [n Hn]. destruct (Hin a Ha2). congruence.
Qed.

(** The nodes [clear] pops are gone from the store. *)
Lemma clear_freed fuel h this cs :
  rep h this cs → (length cs ≤ fuel)%nat →
  ∃ h', clear fuel h this = Ok (h', empty_list)
        ∧ (∀ a, a ∈ cs.*1 → h' !! a = None)
        ∧ (∀ b, b ∉ cs.*1 → h' !! b = h !! b).
Proof.
  revert fuel h this.
  induction cs as [|c cs IH] using rev_ind; intros fuel h this Hrep Hfuel.
  - destruct (clear_rep fuel h this [] Hrep Hfuel) as (h' & Hclear & _ & Hframe).
    exists h'. split_and!; [done| |done].
    intros a Ha. by apply elem_of_nil in Ha.
  - rewrite length_app in Hfuel. simpl in Hfuel.
    destruct fuel as [|fuel]; [lia|].
    pose proof (rep_empty _ _ _ Hrep) as Hempty.
    rewrite bool_decide_eq_false_2 in Hempty by (by destruct cs).
    pose proof Hrep as (Hnd & _).
    rewrite fmap_app in Hnd. apply NoDup_app in Hnd as (_ & Hsep & _).
    destruct (pop_front_rep _ _ _ _ Hrep) as
      (h1 & this1 & Hpop & Hrep1 & Hframe1 & Hgone).
    destruct (IH fuel h1 this1 Hrep1) as (h2 & Hclear & Hfreed & Hframe2); [lia|].
    exists h2. split_and!.
    + simpl. rewrite Hempty. simpl.
      by rewrite blank_pop_front_pop_front, Hpop.
    + intros a Ha. rewrite fmap_app in Ha.
      apply elem_of_app in Ha as [Ha|Ha]; [by apply Hfreed|].
      apply list_elem_of_singleton in Ha as ->. rewrite Hframe2; [done|].
      intros Hin. apply (Hsep _ Hin). apply list_elem_of_here.
    + intros b Hb. rewrite fmap_app in Hb.
      apply not_elem_of_app in Hb as [Hb1 Hb2].
      apply not_elem_of_cons in Hb2 as [Hb2 _].
      rewrite Hframe2 by done. apply Hframe1; [done|].
      intros Hlast%last_loc_elem_of. done.
Qed.

End further_lemmas.

Section end_operations.
Context {T : Type} {T_eq : EqDecision T} {T_init : DefaultConstructible T}.
Implicit Types (h : gmap loc (doubly_linked_node T)).
Implicit Types (cs : list (loc * T)) (p q : option loc).
Implicit Types (this rhs other : doubly_linked_list).
Implicit Types (xs ys : list T) (ops : list (push_op T)).

(** [clear()] on a list of [n] nodes, given [n] turns of its loop, returns
    with the list in the state of a default-constructed one; the [n] nodes
    of the list are destroyed, every other node of the store is as it was,
    and clearing again changes nothing. *)
Theorem clear_destroys_the_nodes fuel h this cs :
  rep h this cs → (length cs ≤ fuel)%nat →
  ∃ h',
    clear fuel h this = Ok (h', empty_list)
    ∧ (∀ a, a ∈ cs.*1 → h' !! a = None)
    ∧ (∀ b, b ∉ cs.*1 → h' !! b = h !! b)
    ∧ live_nodes h = (live_nodes h' + length cs)%nat
    ∧ clear fuel h' empty_list = Ok (h', empty_list).
Proof.
  intros Hrep Hfuel.
  destruct (clear_freed fuel h this cs Hrep Hfuel)
    as (h' & Hclear & Hfreed & Hframe).
  exists h'. split_and!; [done|done|done| |by destruct fuel].
  destruct Hrep as (Hnd & Hseg & _).
  rewrite <-(length_fmap fst cs). apply live_nodes_removed; [done|..].
  - intros a Ha. split; [by eapply dseg_is_Some|by apply Hfreed].
  - intros b Hb. by rewrite Hframe.
Qed.

(** [push_front( x )] followed by [pop_back()] returns [x] and leaves the
    store and the list exactly as they were before the push; so does
    [push_back( x )] followed by [pop_front()].  Each pair works at one end
    of the list, as a stack does. *)
Theorem push_then_pop_at_the_same_end h this cs x :
  rep h this cs →
  Z.of_nat (live_nodes h) < max_live_nodes →
  (∃ h1 this1,
     push_front h this x = Ok (h1, this1)
     ∧ pop_back h1 this1 = Ok (h, this, x))
  ∧ (∃ h1 this1,
     push_back h this x = Ok (h1, this1)
     ∧ pop_front h1 this1 = Ok (h, this, x)).
Proof.
  intros Hrep Hroom.
  assert (Hsame : ∀ h2 that (hd : option loc) a,
    h !! a = None → h2 !! a = None → rep h2 that cs →
    (∀ b, b ≠ a → hd ≠ Some b → h2 !! b = h !! b) →
    (∀ b, hd = Some b → b ∈ cs.*1) →
    h2 = h).
  { intros h2 that hd a Hfresh Hgone Hrep2 Hframe Hhd. apply map_eq. intros i.
    destruct (decide (i = a)) as [->|Hia]; [congruence|].
    destruct (decide (hd = Some i)) as [Hi|Hi]; [|by apply Hframe].
    apply Hhd in Hi. apply list_elem_of_lookup in Hi as [k Hk].
    apply list_lookup_fmap_Some in Hk as (c & -> & Hk).
    destruct Hrep as (_ & Hseg & _). destruct Hrep2 as (_ & Hseg2 & _).
    by rewrite (dseg_lookup _ _ _ _ _ _ Hseg Hk),
      (dseg_lookup _ _ _ _ _ _ Hseg2 Hk). }
  split.
  - destruct (push_front_rep h this cs x Hrep Hroom) as
      (h1 & this1 & a & Hpush & Hfresh & Hrep1 & Hframe1 & _).
    destruct (pop_back_rep h1 this1 (a, x) cs Hrep1) as
      (h2 & this2 & Hpop & Hrep2 & Hframe2 & Hgone).
    exists h1, this1. split; [done|]. rewrite Hpop.
    assert (h2 = h) as ->.
    { apply (Hsame h2 this2 (hd_loc cs None) a Hfresh Hgone Hrep2).
      - intros b Hb1 Hb2. rewrite Hframe2 by done. by apply Hframe1.
      - intros b. apply hd_loc_elem_of. }
    by rewrite (rep_handle_unique _ _ _ _ _ Hrep2 Hrep).
  - destruct (push_back_rep h this cs x Hrep Hroom) as
      (h1 & this1 & a & Hpush & Hfresh & Hrep1 & Hframe1 & _).
    destruct (pop_front_rep h1 this1 cs (a, x) Hrep1) as
      (h2 & this2 & Hpop & Hrep2 & Hframe2 & Hgone).
    exists h1, this1. split; [done|]. rewrite Hpop.
    assert (h2 = h) as ->.
    { apply (Hsame h2 this2 (last_loc None cs) a Hfresh Hgone Hrep2).
      - intros b Hb1 Hb2. rewrite Hframe2 by done. by apply Hframe1.
      - intros b. apply last_loc_elem_of. }
    by rewrite (rep_handle_unique _ _ _ _ _ Hrep2 Hrep).
Qed.

(** The values pushed with [push_back] into an empty list come back in the
    order of the pushes from as many [pop_back], as from a queue, and in the
    reverse order from as many [pop_front], as from a stack. *)
Theorem push_back_all_then_pops h xs :
  Z.of_nat (live_nodes h) + Z.of_nat (length xs) ≤ max_live_nodes →
  ∃ h1 l1,
    push_back_all h empty_list xs = Ok (h1, l1)
    ∧ size l1 = Z.of_nat (length xs)
    ∧ (∃ h2, pop_back_n (length xs) h1 l1 = Ok (h2, empty_list, xs))
    ∧ (∃ h2, pop_front_n (length xs) h1 l1
             = Ok (h2, empty_list, reverse xs)).
Proof.
  intros Hroom.
  destruct (run_pushes_rep h empty_list [] (PushBack <$> xs) (rep_nil h))
    as (h1 & l1 & cs & Hrun & Hrep & Hitems & _).
  { by rewrite length_fmap. }
  rewrite apply_pushes_back in Hitems. simpl in Hitems.
  assert (length cs = length xs) as Hlen.
  { by rewrite <-(length_fmap snd cs), Hitems. }
  exists h1, l1. rewrite push_back_all_run. split_and!; [done|..].
  - destruct Hrep as (_ & _ & _ & _ & Hn & _). unfold size. by rewrite Hn, Hlen.
  - destruct (pop_back_n_rep h1 l1 cs []) as (h2 & l2 & Hpop & Hrep2).
    { by rewrite app_nil_r. }
    apply rep_nil_inv in Hrep2 as ->.
    exists h2. by rewrite <-Hlen, Hpop, Hitems.
  - destruct (pop_front_n_rep h1 l1 [] cs Hrep) as (h2 & l2 & Hpop & Hrep2).
    apply rep_nil_inv in Hrep2 as ->.
    exists h2. by rewrite <-Hlen, Hpop, Hitems.
Qed.

End end_operations.

Section iterator_lemmas.
Context {T : Type} {T_eq : EqDecision T} {T_init : DefaultConstructible T}.
Implicit Types (h : gmap loc (doubly_linked_node T)).
Implicit Types (cs : list (loc * T)) (p q : option loc).
Implicit Types (this rhs other : doubly_linked_list).
Implicit Types (xs ys : list T).

Lemma hd_loc_fmap cs q : hd_loc cs q = default q (Some <$> head cs.*1).
Proof. by destruct cs. Qed.

Lemma fmap_fst_insert cs i c (x : T) :
  cs !! i = Some c → (<[i := (c.1, x)]> cs).*1 = cs.*1.
Proof.
  intros Hi. rewrite list_fmap_insert. apply list_insert_id.
  by rewrite list_lookup_fmap, Hi.
Qed.

(** Writing the item of one node of a chain. *)
Lemma dseg_insert_item h p cs q i c (x : T) n :
  NoDup cs.*1 → dseg h p cs q → cs !! i = Some c → h !! c.1 = Some n →
  dseg (<[c.1 := {| item := x; previous := previous n; next := next n |}]> h)
    p (<[i := (c.1, x)]> cs) q.
Proof.
  revert p i. induction cs as [|c0 cs IH]; intros p i Hnd Hseg Hi Hn; [done|].
  rewrite fmap_cons in Hnd. apply NoDup_cons in Hnd as [Hnotin Hnd].
  destruct Hseg as [Hc0 Hseg]. destruct i as [|j].
  - injection Hi as <-. simpl. rewrite lookup_insert_eq.
    rewrite Hc0 in Hn. injection Hn as <-. simpl. split; [done|].
    eapply dseg_frame; [|exact Hseg]. intros a Ha.
    apply lookup_insert_ne. by intros <-.
  - simpl in Hi. simpl.
    assert (c.1 ∈ cs.*1) as Hin.
    { apply list_elem_of_fmap. exists c. split; [done|].
      by eapply list_elem_of_lookup_2. }
    assert (c0.1 ≠ c.1) as Hne by (by intros Heq; rewrite Heq in Hnotin).
    rewrite lookup_insert_ne by done. split.
    + rewrite Hc0. do 2 f_equal.
      rewrite !hd_loc_fmap. by rewrite fmap_fst_insert.
    + by apply IH.
Qed.

(** The loop [for ( ; it != last; ++it )] with [last] on a node, over a
    chain. *)
Lemma visit_range_to_node fuel h p cs (b : loc) nb :
  dseg h p cs None → h !! b = Some nb → (length cs ≤ fuel)%nat →
  visit_range fuel h (hd_loc cs None) (Some b)
  = match items_before (item nb) cs.*2 with
    | Some pre => Ok pre
    | None => Undefined
    end.
Proof.
  revert fuel p. induction cs as [|c cs IH]; intros fuel p Hseg Hb Hfuel.
  - by rewrite visit_range_unfold.
  - rewrite visit_range_unfold. destruct Hseg as [Hc Hseg].
    destruct fuel as [|fuel]; [simpl in Hfuel; lia|]. simpl in Hfuel.
    unfold iterator_ne, iterator_eq, iterator_star, iterator_incr, deref.
    simpl. rewrite Hc, Hb. simpl.
    case_bool_decide; simpl; [done|].
    rewrite (IH fuel (Some c.1)) by (done || lia).
    change (list_fmap (loc * T)%type T snd cs) with (cs.*2).
    by destruct (items_before (item nb) cs.*2).
Qed.

End iterator_lemmas.

Section iterator_properties.
Context {T : Type} {T_eq : EqDecision T} {T_init : DefaultConstructible T}.
Implicit Types (h : gmap loc (doubly_linked_node T)).
Implicit Types (cs : list (loc * T)) (p q : option loc).
Implicit Types (this rhs other : doubly_linked_list).
Implicit Types (xs ys : list T).

(** Stepping an iterator that stands on the node at position [i] of a list:
    [++] leads to position [i + 1], or to the null iterator from the last
    position; [--] leads to position [i - 1], or to the null iterator from
    the first; the reverse iterator steps the other way, and [it++] returns
    the position it leaves.  So [--] undoes [++] wherever [++] reaches a
    node.  The null iterator, which is what [end()] and [rend()] are, cannot
    be stepped either way: both [++] and [--] dereference its null node. *)
Theorem iterator_steps_along_the_chain h this cs i c :
  rep h this cs → cs !! i = Some c →
  iterator_star h (Some c.1) = Ok c.2
  ∧ iterator_incr h (Some c.1) = Ok (fst <$> cs !! S i)
  ∧ iterator_decr h (Some c.1)
    = Ok (match i with O => None | S j => fst <$> cs !! j end)
  ∧ reverse_iterator_incr h (Some c.1)
    = Ok (match i with O => None | S j => fst <$> cs !! j end)
  ∧ reverse_iterator_decr h (Some c.1) = Ok (fst <$> cs !! S i)
  ∧ iterator_post_incr h (Some c.1) = Ok (Some c.1, fst <$> cs !! S i)
  ∧ (∀ c', cs !! S i = Some c' →
       iterator_decr h (Some c'.1) = Ok (Some c.1)
       ∧ reverse_iterator_incr h (Some c'.1) = Ok (Some c.1))
  ∧ begin this = fst <$> cs !! O
  ∧ rbegin this = fst <$> last cs
  ∧ iterator_incr h None = Undefined
  ∧ iterator_decr h None = Undefined
  ∧ reverse_iterator_incr h None = Undefined
  ∧ reverse_iterator_decr h None = Undefined.
Proof.
  intros (_ & Hseg & Hb & Hf & _) Hi.
  pose proof (dseg_lookup _ _ _ _ _ _ Hseg Hi) as Hc.
  assert (Hnext : match cs !! S i with
                  | Some c' => Some c'.1
                  | None => None
                  end = fst <$> cs !! S i) by (by destruct (cs !! S i)).
  rewrite Hnext in Hc.
  unfold iterator_star, iterator_incr, iterator_decr, reverse_iterator_incr,
    reverse_iterator_decr, iterator_post_incr, iterator_incr, deref.
  simpl. rewrite Hc. simpl.
  split_and!; try done.
  - intros c' Hi'. rewrite (dseg_lookup _ _ _ _ _ _ Hseg Hi'). simpl.
    by rewrite Hi.
  - unfold begin, list_first. rewrite Hb. by destruct cs.
Qed.

(** A loop [for ( ; it != last; ++it )] whose bound [last] stands on a node
    compares items, not positions: started at [begin()], it visits the items
    of the list up to the first one equal to the item of [last], wherever
    [last] stands; and if no item of the list is equal to it, the loop runs
    off the last node and compares the null iterator with [last], which
    dereferences the null node. *)
Theorem loop_to_a_node_stops_at_an_equal_item fuel h this xs (b : loc) nb :
  holds h this xs → h !! b = Some nb → (length xs ≤ fuel)%nat →
  visit_range fuel h (begin this) (Some b)
  = match items_before (item nb) xs with
    | Some pre => Ok pre
    | None => Undefined
    end.
Proof.
  intros (cs & (_ & Hseg & Hb & _) & <-) Hnb Hfuel.
  rewrite length_fmap in Hfuel. unfold begin, list_first. rewrite Hb.
  by eapply visit_range_to_node.
Qed.

(** [*it = x] on the iterator at position [i] of a list replaces the item at
    that position and nothing else: the list has the same nodes, links and
    size, every other node of the store is as it was, and [*it] is now
    [x]. *)
Theorem assignment_through_an_iterator h this cs i c x :
  rep h this cs → cs !! i = Some c →
  ∃ h',
    iterator_assign h (Some c.1) x = Ok h'
    ∧ rep h' this (<[i := (c.1, x)]> cs)
    ∧ holds h' this (<[i := x]> cs.*2)
    ∧ (∀ b, b ≠ c.1 → h' !! b = h !! b)
    ∧ iterator_star h' (Some c.1) = Ok x.
Proof.
  intros (Hnd & Hseg & Hb & Hf & Hn & Hlt) Hi.
  pose proof (dseg_lookup _ _ _ _ _ _ Hseg Hi) as Hc.
  unfold iterator_assign, iterator_star, deref. rewrite Hc. simpl.
  eexists. split; [done|].
  assert (rep (<[c.1 := {| item := x;
                           previous := match i with
                                       | O => None
                                       | S j => fst <$> cs !! j
                                       end;
                           next := match cs !! S i with
                                   | Some c' => Some c'.1
                                   | None => None
                                   end |}]> h)
              this (<[i := (c.1, x)]> cs)) as Hrep'.
  { unfold rep. rewrite fmap_fst_insert by done. split_and!.
    - done.
    - by apply (dseg_insert_item h None cs None i c x _ Hnd Hseg Hi Hc).
    - rewrite Hb, !hd_loc_fmap. by rewrite fmap_fst_insert.
    - rewrite Hf, <-!last_fmap_fst. by rewrite fmap_fst_insert.
    - by rewrite length_insert.
    - by rewrite length_insert. }
  split_and!.
  - done.
  - exists (<[i := (c.1, x)]> cs). split; [done|]. by rewrite list_fmap_insert.
  - intros b Hne. by apply lookup_insert_ne.
  - by rewrite lookup_insert_eq.
Qed.

End iterator_properties.

Section value_properties.
Context {T : Type} {T_eq : EqDecision T} {T_init : DefaultConstructible T}.
Implicit Types (h : gmap loc (doubly_linked_node T)).
Implicit Types (cs : list (loc * T)) (p q : option loc).
Implicit Types (this rhs other : doubly_linked_list).
Implicit Types (xs ys zs : list T) (ops : list (push_op T)).

(** [==] between lists is symmetric and transitive (and reflexive, by
    [list_equality_compares_items]): an equivalence, whichever of the lists
    share nodes. *)
Theorem list_equality_is_an_equivalence fuel h l1 l2 l3 xs ys zs :
  holds h l1 xs → holds h l2 ys → holds h l3 zs →
  (length xs ≤ fuel)%nat → (length ys ≤ fuel)%nat →
  op_eq fuel h l1 l2 = op_eq fuel h l2 l1
  ∧ (op_eq fuel h l1 l2 = Ok true → op_eq fuel h l2 l3 = Ok true →
     op_eq fuel h l1 l3 = Ok true)
  ∧ (op_eq fuel h l1 l2 = Ok true → xs = ys).
Proof.
  intros (cs1 & Hrep1 & <-) (cs2 & Hrep2 & <-) (cs3 & Hrep3 & <-) Hf1 Hf2.
  rewrite length_fmap in Hf1, Hf2.
  rewrite (op_eq_rep fuel h l1 l2 cs1 cs2), (op_eq_rep fuel h l2 l1 cs2 cs1),
    (op_eq_rep fuel h l2 l3 cs2 cs3), (op_eq_rep fuel h l1 l3 cs1 cs3) by done.
  split_and!.
  - f_equal. apply bool_decide_ext. split; by intros ->.
  - intros [= H12%bool_decide_eq_true] [= H23%bool_decide_eq_true].
    f_equal. apply bool_decide_eq_true. congruence.
  - by intros [= H12%bool_decide_eq_true].
Qed.

(** The free [operator+] accepts one list as both operands: [a + a] returns
    a new list holding the items of [a] twice and leaves [a] as it was (the
    member [+=], by contrast, does not return on that input). *)
Theorem free_plus_of_a_list_with_itself fuel h this xs :
  holds h this xs →
  (length xs + length xs ≤ fuel)%nat →
  Z.of_nat (live_nodes h) + 4 * Z.of_nat (length xs) ≤ max_live_nodes →
  ∃ h' sum,
    free_op_plus fuel h this this = Ok (h', sum)
    ∧ holds h' sum (xs ++ xs)
    ∧ holds h' this xs
    ∧ size sum = 2 * size this.
Proof.
  intros (cs & Hrep & <-) Hfuel Hroom. rewrite length_fmap in Hfuel, Hroom.
  destruct (free_op_plus_rep fuel h this this cs cs Hrep Hrep) as
    (h' & sum & new & Hplus & Hsum & Hitems & Hthis & _); [lia|lia|].
  exists h', sum. split_and!; [done| | |].
  - by exists new.
  - by exists cs.
  - destruct Hsum as (_ & _ & _ & _ & Hn & _).
    destruct Hrep as (_ & _ & _ & _ & Hn' & _).
    unfold size. rewrite Hn, Hn'.
    rewrite <-(length_fmap snd new), Hitems, length_app, length_fmap. lia.
Qed.

(** The destructor of a list of two or more nodes destroys none of them:
    it only drops the two end links, and every node of the chain is still
    held by the [next] or [previous] link of a neighbour.  Unless [clear()]
    was called first, the nodes stay in the store when the list is gone. *)
Theorem destructor_destroys_no_node_of_a_chain h this cs :
  rep h this cs → (2 ≤ length cs)%nat →
  destructor h this = h
  ∧ ∀ a, a ∈ cs.*1 →
      is_Some (destructor h this !! a)
      ∧ ∃ b, b ∈ cs.*1 ∧ b ≠ a ∧ linked_from h b a.
Proof.
  intros Hrep Hlen.
  pose proof Hrep as (Hnd & Hseg & Hb & Hf & _).
  assert (destructor h this = h) as Hsame.
  { unfold destructor. rewrite bool_decide_eq_false_2; [done|].
    rewrite Hb, Hf. destruct cs as [|c0 [|c1 cs]]; [simpl in Hlen; lia..|].
    rewrite last_loc_cons. simpl. intros Heq.
    rewrite !fmap_cons in Hnd. apply NoDup_cons in Hnd as [Hnotin _].
    apply Hnotin.
    assert (last_loc (Some c0.1) (c1 :: cs) = last_loc None (c1 :: cs)) as Hl.
    { by rewrite !last_loc_cons. }
    rewrite Hl in Heq. by apply (last_loc_elem_of (c1 :: cs)). }
  split; [done|]. intros a Ha. rewrite Hsame.
  split; [by eapply dseg_is_Some|].
  apply list_elem_of_lookup in Ha as [i Hi].
  apply list_lookup_fmap_Some in Hi as (c & -> & Hi).
  destruct i as [|j].
  - (* the first node is held by the second *)
    destruct (cs !! 1%nat) as [c'|] eqn:Hi'.
    2:{ apply lookup_ge_None in Hi'. lia. }
    exists c'.1. split_and!.
    + apply list_elem_of_fmap. exists c'. split; [done|].
      by eapply list_elem_of_lookup_2.
    + intros Heq. assert (1 = 0)%nat; [|done].
      apply (NoDup_lookup cs.*1 1%nat 0%nat c.1 Hnd); rewrite list_lookup_fmap.
      * rewrite Hi'. simpl. by rewrite Heq.
      * by rewrite Hi.
    + eexists. split; [exact (dseg_lookup _ _ _ _ _ _ Hseg Hi')|].
      right. simpl. by rewrite Hi.
  - (* any other node is held by the one before it *)
    destruct (cs !! j) as [c'|] eqn:Hi'.
    2:{ apply lookup_ge_None in Hi'. apply lookup_lt_Some in Hi. lia. }
    exists c'.1. split_and!.
    + apply list_elem_of_fmap. exists c'. split; [done|].
      by eapply list_elem_of_lookup_2.
    + intros Heq. assert (j = S j)%nat; [|lia].
      apply (NoDup_lookup cs.*1 j (S j) c.1 Hnd); rewrite list_lookup_fmap.
      * rewrite Hi'. simpl. by rewrite Heq.
      * by rewrite Hi.
    + eexists. split; [exact (dseg_lookup _ _ _ _ _ _ Hseg Hi')|].
      left. simpl. by rewrite Hi.
Qed.

(** [pop_front()] followed by [pop_back()]: on a list of one element the
    first pop returns it and the second finds the list empty, returns [T()]
    and changes nothing; on a longer list the two pops return the last and
    the first element, leave the ones between, and the size is less by
    two. *)
Theorem pop_front_then_pop_back h this :
  (∀ x, holds h this [x] →
     ∃ h1,
       pop_front h this = Ok (h1, empty_list, x)
       ∧ pop_back h1 empty_list = Ok (h1, empty_list, value_init))
  ∧ (∀ y mid x, holds h this (y :: mid ++ [x]) →
       ∃ h1 l1 h2 l2,
         pop_front h this = Ok (h1, l1, x)
         ∧ pop_back h1 l1 = Ok (h2, l2, y)
         ∧ holds h2 l2 mid
         ∧ size l2 = size this - 2).
Proof.
  split.
  - intros x (cs & Hrep & Hitems).
    destruct cs as [|c [|c1 cs]]; [done| |done]. injection Hitems as <-.
    destruct (pop_front_rep h this [] c Hrep) as (h1 & l1 & Hpop & Hrep1 & _).
    apply rep_nil_inv in Hrep1 as ->. by exists h1.
  - intros y mid x (cs & Hrep & Hitems).
    assert (∃ c0 cs0 c1, cs = c0 :: cs0 ++ [c1]
                         ∧ c0.2 = y ∧ cs0.*2 = mid ∧ c1.2 = x)
      as (c0 & cs0 & c1 & -> & <- & <- & <-).
    { destruct cs as [|c0 cs]; [done|]. injection Hitems as Hy Hrest.
      destruct cs as [|c1 cs _] using rev_ind.
      { by destruct mid. }
      rewrite fmap_app in Hrest. apply app_inj_tail in Hrest as [Hmid Hx].
      by exists c0, cs, c1. }
    pose proof Hrep as (_ & _ & _ & _ & Hn & _).
    destruct (pop_front_rep h this (c0 :: cs0) c1 Hrep) as
      (h1 & l1 & Hpop & Hrep1 & _).
    destruct (pop_back_rep h1 l1 c0 cs0 Hrep1) as
      (h2 & l2 & Hpop2 & Hrep2 & _).
    exists h1, l1, h2, l2. split_and!; [done|done|by exists cs0|].
    destruct Hrep2 as (_ & _ & _ & _ & Hn2 & _).
    unfold size. rewrite Hn2, Hn, length_cons, length_app. simpl. lia.
Qed.

End value_properties.

Section sharing_lemmas.
Context {T : Type} {T_eq : EqDecision T} {T_init : DefaultConstructible T}.
Implicit Types (h : gmap loc (doubly_linked_node T)).
Implicit Types (cs : list (loc * T)) (p q : option loc).
Implicit Types (this rhs other : doubly_linked_list).
Implicit Types (xs ys : list T).

(** The item of a node of a list, read through an iterator. *)
Lemma iterator_star_cell h this cs c :
  rep h this cs → c ∈ cs → iterator_star h (Some c.1) = Ok c.2.
Proof.
  intros (_ & Hseg & _) [i Hi]%list_elem_of_lookup.
  unfold iterator_star, deref. by rewrite (dseg_lookup _ _ _ _ _ _ Hseg Hi).
Qed.

(** What a pop does to the store: one node less, the others of the list
    still there, the nodes outside the list as they were. *)
Lemma pop_back_store h this c cs :
  rep h this (c :: cs) →
  ∃ h' this',
    pop_back h this = Ok (h', this', c.2)
    ∧ rep h' this' cs
    ∧ h' !! c.1 = None
    ∧ (∀ b, b ∉ (c :: cs).*1 → h' !! b = h !! b)
    ∧ live_nodes h = S (live_nodes h').
Proof.
  intros Hrep.
  destruct (pop_back_rep h this c cs Hrep) as
    (h' & this' & Hpop & Hrep' & Hframe & Hgone).
  exists h', this'. split_and!; [done|done|done| |].
  - intros b Hb. rewrite fmap_cons in Hb.
    apply not_elem_of_cons in Hb as [Hb1 Hb2].
    apply Hframe; [done|]. by intros Hin%hd_loc_elem_of.
  - rewrite (live_nodes_removed h h' [c.1]); [simpl; lia|apply NoDup_singleton|..].
    + intros a ->%list_elem_of_singleton. split; [|done].
      destruct Hrep as (_ & [Hc _] & _). by rewrite Hc.
    + intros b Hb. apply not_elem_of_cons in Hb as [Hb _].
      destruct (decide (b ∈ cs.*1)) as [Hin|Hnotin].
      * destruct Hrep as (_ & [_ Hseg] & _). destruct Hrep' as (_ & Hseg' & _).
        split; intros _; by eapply dseg_is_Some.
      * rewrite Hframe; [done|done|]. by intros Hin%hd_loc_elem_of.
Qed.

Lemma pop_front_store h this cs c :
  rep h this (cs ++ [c]) →
  ∃ h' this',
    pop_front h this = Ok (h', this', c.2)
    ∧ rep h' this' cs
    ∧ h' !! c.1 = None
    ∧ (∀ b, b ∉ (cs ++ [c]).*1 → h' !! b = h !! b)
    ∧ live_nodes h = S (live_nodes h').
Proof.
  intros Hrep.
  destruct (pop_front_rep h this cs c Hrep) as
    (h' & this' & Hpop & Hrep' & Hframe & Hgone).
  exists h', this'. split_and!; [done|done|done| |].
  - intros b Hb. rewrite fmap_app in Hb.
    apply not_elem_of_app in Hb as [Hb1 Hb2].
    apply not_elem_of_cons in Hb2 as [Hb2 _].
    apply Hframe; [done|]. by intros Hin%last_loc_elem_of.
  - rewrite (live_nodes_removed h h' [c.1]); [simpl; lia|apply NoDup_singleton|..].
    + intros a ->%list_elem_of_singleton. split; [|done].
      destruct Hrep as (_ & Hseg & _).
      eapply dseg_is_Some; [exact Hseg|]. rewrite fmap_app.
      apply elem_of_app. right. apply list_elem_of_here.
    + intros b Hb. apply not_elem_of_cons in Hb as [Hb _].
      destruct (decide (b ∈ cs.*1)) as [Hin|Hnotin].
      * destruct Hrep as (_ & Hseg & _). destruct Hrep' as (_ & Hseg' & _).
        split; intros _; [|by eapply dseg_is_Some].
        eapply dseg_is_Some; [exact Hseg|]. rewrite fmap_app.
        apply elem_of_app. by left.
      * rewrite Hframe; [done|done|]. by intros Hin%last_loc_elem_of.
Qed.

(** A separate list is not touched by a push that returns. *)
Lemma push_front_Ok_frame h this other cs1 cs2 x h' this' :
  rep h this cs1 → rep h other cs2 → separate cs1 cs2 →
  push_front h this x = Ok (h', this') → rep h' other cs2.
Proof.
  intros Hrep1 Hrep2 Hsep Hok.
  destruct (decide (Z.of_nat (live_nodes h) < max_live_nodes)) as [Hroom|Hfull].
  - destruct (push_front_rep h this cs1 x Hrep1 Hroom) as
      (h1 & this1 & a & Hpush & Hfresh & _ & Hframe & _).
    rewrite Hok in Hpush. injection Hpush as <- <-.
    eapply rep_frame; [|exact Hrep2]. intros b Hb. apply Hframe.
    + intros ->. destruct Hrep2 as (_ & Hseg & _).
      destruct (dseg_is_Some _ _ _ _ _ Hseg Hb) as [n Hn]. congruence.
    + intros Hin%hd_loc_elem_of. by apply (Hsep b).
  - unfold push_front, make_shared in Hok. by rewrite decide_False in Hok.
Qed.

Lemma push_back_Ok_frame h this other cs1 cs2 x h' this' :
  rep h this cs1 → rep h other cs2 → separate cs1 cs2 →
  push_back h this x = Ok (h', this') → rep h' other cs2.
Proof.
  intros Hrep1 Hrep2 Hsep Hok.
  destruct (decide (Z.of_nat (live_nodes h) < max_live_nodes)) as [Hroom|Hfull].
  - destruct (push_back_rep h this cs1 x Hrep1 Hroom) as
      (h1 & this1 & a & Hpush & Hfresh & _ & Hframe & _).
    rewrite Hok in Hpush. injection Hpush as <- <-.
    eapply rep_frame; [|exact Hrep2]. intros b Hb. apply Hframe.
    + intros ->. destruct Hrep2 as (_ & Hseg & _).
      destruct (dseg_is_Some _ _ _ _ _ Hseg Hb) as [n Hn]. congruence.
    + intros Hin%last_loc_elem_of. by apply (Hsep b).
  - by rewrite push_back_BadAlloc in Hok.
Qed.

End sharing_lemmas.

Section sharing_properties.
Context {T : Type} {T_eq : EqDecision T} {T_init : DefaultConstructible T}.
Implicit Types (h : gmap loc (doubly_linked_node T)).
Implicit Types (cs : list (loc * T)) (p q : option loc).
Implicit Types (this rhs other : doubly_linked_list).
Implicit Types (xs ys : list T).

(** The copy constructor makes a deep copy: the copy holds the items of the
    original in the same order, in as many new nodes; it shares no node with
    the original, compares equal to it and has its size; the original is as
    it was; and clearing the original afterwards leaves the copy with its
    items. *)
Theorem copy_is_a_separate_list fuel h other xs :
  holds h other xs → (length xs ≤ fuel)%nat →
  Z.of_nat (live_nodes h) + Z.of_nat (length xs) ≤ max_live_nodes →
  ∃ h' copy,
    copy_ctor fuel h other = Ok (h', copy)
    ∧ holds h' copy xs
    ∧ holds h' other xs
    ∧ apart h' copy other
    ∧ op_eq fuel h' copy other = Ok true
    ∧ size copy = size other
    ∧ live_nodes h' = (live_nodes h + length xs)%nat
    ∧ ∃ h'', clear fuel h' other = Ok (h'', empty_list) ∧ holds h'' copy xs.
Proof.
  intros (cs & Hrep & <-) Hfuel Hroom. rewrite length_fmap in *.
  destruct (copy_ctor_rep fuel h other cs Hrep Hfuel Hroom) as
    (h' & copy & new & Hcopy & Hnew & Hitems & Hframe & Hfresh & Hlive).
  pose proof (length_items_eq _ _ Hitems) as Hlen.
  assert (rep h' other cs) as Hother.
  { eapply rep_frame; [|exact Hrep]. intros a Ha. apply Hframe.
    destruct Hrep as (_ & Hseg & _). by eapply dseg_is_Some. }
  assert (separate new cs) as Hsep.
  { destruct Hrep as (_ & Hseg & _). by eapply separate_fresh. }
  exists h', copy. split_and!.
  - done.
  - by exists new.
  - by exists cs.
  - by eapply apart_intro.
  - rewrite (op_eq_rep fuel h' copy other new cs) by (done || lia).
    by rewrite bool_decide_eq_true_2.
  - destruct Hnew as (_ & _ & _ & _ & Hn & _).
    destruct Hrep as (_ & _ & _ & _ & Hn' & _).
    unfold size. by rewrite Hn, Hn', Hlen.
  - done.
  - destruct (clear_rep fuel h' other cs Hother Hfuel)
      as (h'' & Hclear & _ & Hframe2).
    exists h''. split; [done|]. exists new. split; [|done].
    eapply rep_frame; [|exact Hnew]. intros a Ha. apply Hframe2.
    intros Hin. by apply (Hsep a).
Qed.

(** A push links one new node at its end and invalidates no iterator:
    after [push_front( x )] the new node is [begin()], holds [x], has the old
    [begin()] after it and nothing before it; after [push_back( x )] the new
    node is [rbegin()], with the old [rbegin()] before it and nothing after
    it.  In both cases every iterator into the list still reads the item it
    read before, and the size is one more. *)
Theorem push_links_one_node_and_keeps_the_others h this cs x :
  rep h this cs →
  Z.of_nat (live_nodes h) < max_live_nodes →
  (∃ h' this' a,
     push_front h this x = Ok (h', this')
     ∧ h !! a = None
     ∧ holds h' this' (x :: cs.*2)
     ∧ begin this' = Some a
     ∧ iterator_star h' (Some a) = Ok x
     ∧ iterator_incr h' (Some a) = Ok (begin this)
     ∧ iterator_decr h' (Some a) = Ok None
     ∧ (∀ c, c ∈ cs → iterator_star h' (Some c.1) = Ok c.2)
     ∧ peek_back h' this' = Ok x
     ∧ size this' = size this + 1)
  ∧ (∃ h' this' a,
     push_back h this x = Ok (h', this')
     ∧ h !! a = None
     ∧ holds h' this' (cs.*2 ++ [x])
     ∧ rbegin this' = Some a
     ∧ iterator_star h' (Some a) = Ok x
     ∧ iterator_decr h' (Some a) = Ok (rbegin this)
     ∧ iterator_incr h' (Some a) = Ok None
     ∧ (∀ c, c ∈ cs → iterator_star h' (Some c.1) = Ok c.2)
     ∧ peek_front h' this' = Ok x
     ∧ size this' = size this + 1).
Proof.
  intros Hrep Hroom.
  pose proof Hrep as (_ & _ & Hb & Hf & Hn & _).
  split.
  - destruct (push_front_rep h this cs x Hrep Hroom) as
      (h' & this' & a & Hpush & Hfresh & Hrep' & _).
    pose proof Hrep' as (_ & [Ha _] & Hb' & _ & Hn' & _).
    simpl in Ha, Hb'.
    exists h', this', a.
    unfold begin, list_first, iterator_star, iterator_incr, iterator_decr,
      deref, size.
    rewrite Ha, Hb', Hb, Hn', Hn, length_cons. simpl.
    split_and!; try done.
    + by exists ((a, x) :: cs).
    + intros c Hc. apply (iterator_star_cell h' this' ((a, x) :: cs)); [done|].
      by apply list_elem_of_further.
    + by apply (peek_back_rep h' this' (a, x) cs).
    + lia.
  - destruct (push_back_rep h this cs x Hrep Hroom) as
      (h' & this' & a & Hpush & Hfresh & Hrep' & _).
    pose proof Hrep' as (_ & Hseg' & _ & Hf' & Hn' & _).
    apply dseg_app in Hseg' as [_ [Ha _]]. simpl in Ha.
    rewrite last_loc_snoc in Hf'. simpl in Hf'.
    exists h', this', a.
    unfold rbegin, list_last, iterator_star, iterator_incr, iterator_decr,
      deref, size.
    rewrite Ha, Hf', Hf, Hn', Hn, length_app. simpl.
    split_and!; try done.
    + exists (cs ++ [(a, x)]). split; [done|]. by rewrite fmap_app.
    + intros c Hc. apply (iterator_star_cell h' this' (cs ++ [(a, x)])); [done|].
      apply elem_of_app. by left.
    + by apply (peek_front_rep h' this' cs (a, x)).
    + lia.
Qed.

(** A pop destroys the node it unlinks and no other: an iterator left on the
    popped node dangles, every other iterator into the list still reads its
    item, one node less is alive, and the nodes outside the list are as they
    were.  [pop_back] does this to the node [begin()] stands on, [pop_front]
    to the node [rbegin()] stands on. *)
Theorem pop_destroys_one_node_and_keeps_the_others h this cs c0 c1 :
  rep h this cs → head cs = Some c0 → last cs = Some c1 →
  (∃ h' this',
     pop_back h this = Ok (h', this', c0.2)
     ∧ begin this = Some c0.1
     ∧ iterator_star h' (Some c0.1) = Undefined
     ∧ (∀ c, c ∈ cs → c.1 ≠ c0.1 → iterator_star h' (Some c.1) = Ok c.2)
     ∧ (∀ b, b ∉ cs.*1 → h' !! b = h !! b)
     ∧ live_nodes h = S (live_nodes h'))
  ∧ (∃ h' this',
     pop_front h this = Ok (h', this', c1.2)
     ∧ rbegin this = Some c1.1
     ∧ iterator_star h' (Some c1.1) = Undefined
     ∧ (∀ c, c ∈ cs → c.1 ≠ c1.1 → iterator_star h' (Some c.1) = Ok c.2)
     ∧ (∀ b, b ∉ cs.*1 → h' !! b = h !! b)
     ∧ live_nodes h = S (live_nodes h')).
Proof.
  intros Hrep Hhead Hlast. split.
  - destruct cs as [|c cs']; [done|]. injection Hhead as ->.
    destruct (pop_back_store h this c0 cs' Hrep) as
      (h' & this' & Hpop & Hrep' & Hgone & Hframe & Hlive).
    exists h', this'. split_and!; [done| | | |done|done].
    + destruct Hrep as (_ & _ & Hb & _). unfold begin, list_first. by rewrite Hb.
    + unfold iterator_star, deref. by rewrite Hgone.
    + intros c Hc Hne. apply elem_of_cons in Hc as [->|Hc]; [done|].
      by apply (iterator_star_cell h' this' cs').
  - apply last_Some in Hlast as [cs' ->].
    destruct (pop_front_store h this cs' c1 Hrep) as
      (h' & this' & Hpop & Hrep' & Hgone & Hframe & Hlive).
    exists h', this'. split_and!; [done| | | |done|done].
    + destruct Hrep as (_ & _ & _ & Hf & _). unfold rbegin, list_last.
      by rewrite Hf, last_loc_snoc.
    + unfold iterator_star, deref. by rewrite Hgone.
    + intros c Hc Hne. apply elem_of_app in Hc as [Hc|Hc].
      * by apply (iterator_star_cell h' this' cs').
      * by apply list_elem_of_singleton in Hc as ->.
Qed.

(** What is done to one list leaves a list that shares no node with it as
    it was: the pushes, the pops, [clear()], an assignment through an
    iterator into the list, and its destruction. *)
Theorem operations_on_a_list_leave_a_separate_list h this other cs1 cs2 :
  rep h this cs1 → rep h other cs2 → separate cs1 cs2 →
  (∀ x h' this', push_front h this x = Ok (h', this') → rep h' other cs2)
  ∧ (∀ x h' this', push_back h this x = Ok (h', this') → rep h' other cs2)
  ∧ (∀ h' this' x, pop_front h this = Ok (h', this', x) → rep h' other cs2)
  ∧ (∀ h' this' x, pop_back h this = Ok (h', this', x) → rep h' other cs2)
  ∧ (∀ fuel h' this', clear fuel h this = Ok (h', this') → rep h' other cs2)
  ∧ (∀ a x h', a ∈ cs1.*1 →
       iterator_assign h (Some a) x = Ok h' → rep h' other cs2)
  ∧ rep (destructor h this) other cs2.
Proof.
  intros Hrep1 Hrep2 Hsep.
  assert (Hout : ∀ b, b ∈ cs2.*1 → b ∉ cs1.*1).
  { intros b Hb Hin. by apply (Hsep b). }
  split_and!.
  - intros x h' this'. by apply (push_front_Ok_frame h this other cs1 cs2).
  - intros x h' this'. by apply (push_back_Ok_frame h this other cs1 cs2).
  - intros h' this' x Hok.
    destruct cs1 as [|c cs _] using rev_ind.
    + apply rep_nil_inv in Hrep1 as ->. by injection Hok as <- _ _.
    + destruct (pop_front_store h this cs c Hrep1) as
        (h1 & this1 & Hpop & _ & _ & Hframe & _).
      rewrite Hok in Hpop. injection Hpop as -> _ _.
      eapply rep_frame; [|exact Hrep2]. intros b Hb. by apply Hframe, Hout.
  - intros h' this' x Hok.
    destruct cs1 as [|c cs].
    + apply rep_nil_inv in Hrep1 as ->. by injection Hok as <- _ _.
    + destruct (pop_back_store h this c cs Hrep1) as
        (h1 & this1 & Hpop & _ & _ & Hframe & _).
      rewrite Hok in Hpop. injection Hpop as -> _ _.
      eapply rep_frame; [|exact Hrep2]. intros b Hb. by apply Hframe, Hout.
  - intros fuel h' this' Hok.
    destruct (clear_Ok fuel h this cs1 h' this' Hrep1 Hok) as (_ & _ & Hframe).
    eapply rep_frame; [|exact Hrep2]. intros b Hb. by apply Hframe, Hout.
  - intros a x h' Ha Hok. unfold iterator_assign in Hok.
    destruct (deref h (Some a)) as [n| | |]; simpl in Hok; [|done..].
    injection Hok as <-.
    eapply rep_frame; [|exact Hrep2]. intros b Hb.
    apply lookup_insert_ne. intros ->. by apply (Hsep b).
  - eapply rep_frame; [|exact Hrep2]. intros b Hb.
    by apply (destructor_frame h this cs1), Hout.
Qed.

(** The destructor of a list of one node destroys the node (the two end
    links were its only owners), and that of an empty list does nothing;
    the rest of the store is as it was. *)
Theorem destructor_destroys_a_single_node h this cs :
  rep h this cs → (length cs ≤ 1)%nat →
  (∀ a, a ∈ cs.*1 → destructor h this !! a = None)
  ∧ (∀ b, b ∉ cs.*1 → destructor h this !! b = h !! b)
  ∧ live_nodes h = (live_nodes (destructor h this) + length cs)%nat.
Proof.
  intros Hrep Hlen.
  assert (Hgone : ∀ a, a ∈ cs.*1 → destructor h this !! a = None).
  { intros a Ha. destruct cs as [|c [|c' cs]]; [|clear Hlen|simpl in Hlen; lia].
    - by apply elem_of_nil in Ha.
    - apply list_elem_of_singleton in Ha as ->.
      destruct Hrep as (_ & _ & Hb & Hf & _). unfold destructor.
      rewrite Hb, Hf. simpl. rewrite bool_decide_eq_true_2 by done.
      apply lookup_delete_eq. }
  assert (Hframe : ∀ b, b ∉ cs.*1 → destructor h this !! b = h !! b).
  { intros b Hb. by apply (destructor_frame h this cs). }
  split_and!; [done|done|].
  destruct Hrep as (Hnd & Hseg & _).
  rewrite <-(length_fmap fst cs). apply live_nodes_removed; [done|..].
  - intros a Ha. split; [by eapply dseg_is_Some|by apply Hgone].
  - intros b Hb. by rewrite Hframe.
Qed.

End sharing_properties.

(** ** The further properties on the lists of [store_ab] *)

Lemma holds_list_b : holds store_ab list_b [3].
Proof. exists cells_b. split; [exact rep_list_b|reflexivity]. Qed.

Lemma clear_destroys_the_nodes_example :
  rep store_ab list_a cells_a ∧ (length cells_a ≤ 2)%nat
  ∧ ∃ h',
      clear 2 store_ab list_a = Ok (h', empty_list)
      ∧ (∀ a, a ∈ cells_a.*1 → h' !! a = None)
      ∧ (∀ b, b ∉ cells_a.*1 → h' !! b = store_ab !! b)
      ∧ live_nodes store_ab = (live_nodes h' + length cells_a)%nat
      ∧ clear 2 h' empty_list = Ok (h', empty_list).
Proof.
  assert (length cells_a ≤ 2)%nat as Hfuel by (simpl; lia).
  split; [exact rep_list_a|]. split; [exact Hfuel|].
  exact (clear_destroys_the_nodes 2 store_ab list_a cells_a rep_list_a Hfuel).
Defined.

Lemma push_then_pop_at_the_same_end_example :
  rep store_ab list_a cells_a
  ∧ Z.of_nat (live_nodes store_ab) < max_live_nodes
  ∧ (∃ h1 this1,
       push_front store_ab list_a 7 = Ok (h1, this1)
       ∧ pop_back h1 this1 = Ok (store_ab, list_a, 7))
  ∧ (∃ h1 this1,
       push_back store_ab list_a 7 = Ok (h1, this1)
       ∧ pop_front h1 this1 = Ok (store_ab, list_a, 7)).
Proof.
  assert (Z.of_nat (live_nodes store_ab) < max_live_nodes) as Hroom
    by (by vm_compute).
  split; [exact rep_list_a|]. split; [exact Hroom|].
  exact (push_then_pop_at_the_same_end store_ab list_a cells_a 7
           rep_list_a Hroom).
Defined.

Lemma push_back_all_then_pops_example :
  Z.of_nat (live_nodes (∅ : gmap loc (doubly_linked_node Z)))
    + Z.of_nat (length [1; 2; 3]) ≤ max_live_nodes
  ∧ ∃ h1 l1,
      push_back_all ∅ empty_list [1; 2; 3] = Ok (h1, l1)
      ∧ size l1 = 3
      ∧ (∃ h2, pop_back_n 3 h1 l1 = Ok (h2, empty_list, [1; 2; 3]))
      ∧ (∃ h2, pop_front_n 3 h1 l1 = Ok (h2, empty_list, [3; 2; 1])).
Proof.
  assert (Z.of_nat (live_nodes (∅ : gmap loc (doubly_linked_node Z)))
          + Z.of_nat (length [1; 2; 3]) ≤ max_live_nodes) as Hroom
    by (by vm_compute).
  split; [exact Hroom|].
  exact (push_back_all_then_pops (T:=Z) ∅ [1; 2; 3] Hroom).
Defined.

Lemma iterator_steps_along_the_chain_example :
  rep store_ab list_a cells_a
  ∧ cells_a !! 0%nat = Some (1%positive, 1)
  ∧ iterator_star store_ab (Some 1%positive) = Ok 1
  ∧ iterator_incr store_ab (Some 1%positive) = Ok (Some 2%positive)
  ∧ iterator_decr store_ab (Some 1%positive) = Ok None
  ∧ reverse_iterator_incr store_ab (Some 1%positive) = Ok None
  ∧ reverse_iterator_decr store_ab (Some 1%positive) = Ok (Some 2%positive)
  ∧ iterator_post_incr store_ab (Some 1%positive)
    = Ok (Some 1%positive, Some 2%positive)
  ∧ (∀ c', cells_a !! 1%nat = Some c' →
       iterator_decr store_ab (Some c'.1) = Ok (Some 1%positive)
       ∧ reverse_iterator_incr store_ab (Some c'.1) = Ok (Some 1%positive))
  ∧ begin list_a = Some 1%positive
  ∧ rbegin list_a = Some 2%positive
  ∧ iterator_incr store_ab None = Undefined
  ∧ iterator_decr store_ab None = Undefined
  ∧ reverse_iterator_incr store_ab None = Undefined
  ∧ reverse_iterator_decr store_ab None = Undefined.
Proof.
  split; [exact rep_list_a|]. split; [reflexivity|].
  exact (iterator_steps_along_the_chain store_ab list_a cells_a 0
           (1%positive, 1) rep_list_a eq_refl).
Defined.

Lemma loop_to_a_node_stops_at_an_equal_item_example :
  holds store_ab list_a [1; 2] ∧ (length [1; 2] ≤ 2)%nat
  ∧ store_ab !! 2%positive
    = Some {| item := 2; previous := Some 1%positive; next := None |}
  ∧ store_ab !! 3%positive
    = Some {| item := 3; previous := None; next := None |}
  ∧ visit_range 2 store_ab (begin list_a) (Some 2%positive) = Ok [1]
  ∧ visit_range 2 store_ab (begin list_a) (Some 3%positive) = Undefined.
Proof.
  assert (length [1; 2] ≤ 2)%nat as Hfuel by (simpl; lia).
  split; [exact holds_list_a|]. split; [exact Hfuel|].
  split; [reflexivity|]. split; [reflexivity|]. split.
  - exact (loop_to_a_node_stops_at_an_equal_item 2 store_ab list_a [1; 2]
             2%positive _ holds_list_a eq_refl Hfuel).
  - exact (loop_to_a_node_stops_at_an_equal_item 2 store_ab list_a [1; 2]
             3%positive _ holds_list_a eq_refl Hfuel).
Defined.

Lemma assignment_through_an_iterator_example :
  rep store_ab list_a cells_a
  ∧ cells_a !! 1%nat = Some (2%positive, 2)
  ∧ ∃ h',
      iterator_assign store_ab (Some 2%positive) 9 = Ok h'
      ∧ rep h' list_a [(1%positive, 1); (2%positive, 9)]
      ∧ holds h' list_a [1; 9]
      ∧ (∀ b, b ≠ 2%positive → h' !! b = store_ab !! b)
      ∧ iterator_star h' (Some 2%positive) = Ok 9.
Proof.
  split; [exact rep_list_a|]. split; [reflexivity|].
  exact (assignment_through_an_iterator store_ab list_a cells_a 1
           (2%positive, 2) 9 rep_list_a eq_refl).
Defined.

Lemma list_equality_is_an_equivalence_example :
  holds store_ab list_a [1; 2] ∧ holds store_ab list_b [3]
  ∧ (length [1; 2] ≤ 2)%nat ∧ (length [3] ≤ 2)%nat
  ∧ op_eq 2 store_ab list_a list_b = op_eq 2 store_ab list_b list_a
  ∧ (op_eq 2 store_ab list_a list_b = Ok true →
     op_eq 2 store_ab list_b list_a = Ok true →
     op_eq 2 store_ab list_a list_a = Ok true)
  ∧ (op_eq 2 store_ab list_a list_b = Ok true → [1; 2] = [3]).
Proof.
  assert (length [1; 2] ≤ 2)%nat as Hfuel1 by (simpl; lia).
  assert (length [3] ≤ 2)%nat as Hfuel2 by (simpl; lia).
  split; [exact holds_list_a|]. split; [exact holds_list_b|].
  split; [exact Hfuel1|]. split; [exact Hfuel2|].
  exact (list_equality_is_an_equivalence 2 store_ab list_a list_b list_a
           [1; 2] [3] [1; 2] holds_list_a holds_list_b holds_list_a
           Hfuel1 Hfuel2).
Defined.

Lemma free_plus_of_a_list_with_itself_example :
  holds store_ab list_a [1; 2]
  ∧ (length [1; 2] + length [1; 2] ≤ 4)%nat
  ∧ Z.of_nat (live_nodes store_ab) + 4 * Z.of_nat (length [1; 2])
    ≤ max_live_nodes
  ∧ ∃ h' sum,
      free_op_plus 4 store_ab list_a list_a = Ok (h', sum)
      ∧ holds h' sum ([1; 2] ++ [1; 2])
      ∧ holds h' list_a [1; 2]
      ∧ size sum = 2 * size list_a.
Proof.
  assert (length [1; 2] + length [1; 2] ≤ 4)%nat as Hfuel by (simpl; lia).
  assert (Z.of_nat (live_nodes store_ab) + 4 * Z.of_nat (length [1; 2])
          ≤ max_live_nodes) as Hroom by (by vm_compute).
  split; [exact holds_list_a|]. split; [exact Hfuel|]. split; [exact Hroom|].
  exact (free_plus_of_a_list_with_itself 4 store_ab list_a [1; 2]
           holds_list_a Hfuel Hroom).
Defined.

Lemma destructor_destroys_no_node_of_a_chain_example :
  rep store_ab list_a cells_a ∧ (2 ≤ length cells_a)%nat
  ∧ destructor store_ab list_a = store_ab
  ∧ ∀ a, a ∈ cells_a.*1 →
      is_Some (destructor store_ab list_a !! a)
      ∧ ∃ b, b ∈ cells_a.*1 ∧ b ≠ a ∧ linked_from store_ab b a.
Proof.
  assert (2 ≤ length cells_a)%nat as Hlen by (simpl; lia).
  split; [exact rep_list_a|]. split; [exact Hlen|].
  exact (destructor_destroys_no_node_of_a_chain store_ab list_a cells_a
           rep_list_a Hlen).
Defined.

Lemma pop_front_then_pop_back_example :
  holds store_ab list_b [3] ∧ holds store_ab list_a (1 :: [] ++ [2])
  ∧ (∃ h1,
       pop_front store_ab list_b = Ok (h1, empty_list, 3)
       ∧ pop_back h1 empty_list = Ok (h1, empty_list, 0))
  ∧ (∃ h1 l1 h2 l2,
       pop_front store_ab list_a = Ok (h1, l1, 2)
       ∧ pop_back h1 l1 = Ok (h2, l2, 1)
       ∧ holds h2 l2 []
       ∧ size l2 = size list_a - 2).
Proof.
  split; [exact holds_list_b|]. split; [exact holds_list_a|]. split.
  - exact (proj1 (pop_front_then_pop_back store_ab list_b) 3 holds_list_b).
  - exact (proj2 (pop_front_then_pop_back store_ab list_a) 1 [] 2
             holds_list_a).
Defined.

Lemma copy_is_a_separate_list_example :
  holds store_ab list_a [1; 2] ∧ (length [1; 2] ≤ 2)%nat
  ∧ Z.of_nat (live_nodes store_ab) + Z.of_nat (length [1; 2])
    ≤ max_live_nodes
  ∧ ∃ h' copy,
      copy_ctor 2 store_ab list_a = Ok (h', copy)
      ∧ holds h' copy [1; 2]
      ∧ holds h' list_a [1; 2]
      ∧ apart h' copy list_a
      ∧ op_eq 2 h' copy list_a = Ok true
      ∧ size copy = size list_a
      ∧ live_nodes h' = (live_nodes store_ab + length [1; 2])%nat
      ∧ ∃ h'', clear 2 h' list_a = Ok (h'', empty_list)
               ∧ holds h'' copy [1; 2].
Proof.
  assert (length [1; 2] ≤ 2)%nat as Hfuel by (simpl; lia).
  assert (Z.of_nat (live_nodes store_ab) + Z.of_nat (length [1; 2])
          ≤ max_live_nodes) as Hroom by (by vm_compute).
  split; [exact holds_list_a|]. split; [exact Hfuel|]. split; [exact Hroom|].
  exact (copy_is_a_separate_list 2 store_ab list_a [1; 2]
           holds_list_a Hfuel Hroom).
Defined.

Lemma push_links_one_node_and_keeps_the_others_example :
  rep store_ab list_a cells_a
  ∧ Z.of_nat (live_nodes store_ab) < max_live_nodes
  ∧ (∃ h' this' a,
       push_front store_ab list_a 7 = Ok (h', this')
       ∧ store_ab !! a = None
       ∧ holds h' this' [7; 1; 2]
       ∧ begin this' = Some a
       ∧ iterator_star h' (Some a) = Ok 7
       ∧ iterator_incr h' (Some a) = Ok (Some 1%positive)
       ∧ iterator_decr h' (Some a) = Ok None
       ∧ (∀ c, c ∈ cells_a → iterator_star h' (Some c.1) = Ok c.2)
       ∧ peek_back h' this' = Ok 7
       ∧ size this' = 3)
  ∧ (∃ h' this' a,
       push_back store_ab list_a 7 = Ok (h', this')
       ∧ store_ab !! a = None
       ∧ holds h' this' [1; 2; 7]
       ∧ rbegin this' = Some a
       ∧ iterator_star h' (Some a) = Ok 7
       ∧ iterator_decr h' (Some a) = Ok (Some 2%positive)
       ∧ iterator_incr h' (Some a) = Ok None
       ∧ (∀ c, c ∈ cells_a → iterator_star h' (Some c.1) = Ok c.2)
       ∧ peek_front h' this' = Ok 7
       ∧ size this' = 3).
Proof.
  assert (Z.of_nat (live_nodes store_ab) < max_live_nodes) as Hroom
    by (by vm_compute).
  split; [exact rep_list_a|]. split; [exact Hroom|].
  exact (push_links_one_node_and_keeps_the_others store_ab list_a cells_a 7
           rep_list_a Hroom).
Defined.

Lemma pop_destroys_one_node_and_keeps_the_others_example :
  rep store_ab list_a cells_a
  ∧ head cells_a = Some (1%positive, 1)
  ∧ last cells_a = Some (2%positive, 2)
  ∧ (∃ h' this',
       pop_back store_ab list_a = Ok (h', this', 1)
       ∧ begin list_a = Some 1%positive
       ∧ iterator_star h' (Some 1%positive) = Undefined
       ∧ (∀ c, c ∈ cells_a → c.1 ≠ 1%positive →
            iterator_star h' (Some c.1) = Ok c.2)
       ∧ (∀ b, b ∉ cells_a.*1 → h' !! b = store_ab !! b)
       ∧ live_nodes store_ab = S (live_nodes h'))
  ∧ (∃ h' this',
       pop_front store_ab list_a = Ok (h', this', 2)
       ∧ rbegin list_a = Some 2%positive
       ∧ iterator_star h' (Some 2%positive) = Undefined
       ∧ (∀ c, c ∈ cells_a → c.1 ≠ 2%positive →
            iterator_star h' (Some c.1) = Ok c.2)
       ∧ (∀ b, b ∉ cells_a.*1 → h' !! b = store_ab !! b)
       ∧ live_nodes store_ab = S (live_nodes h')).
Proof.
  split; [exact rep_list_a|]. split; [reflexivity|]. split; [reflexivity|].
  exact (pop_destroys_one_node_and_keeps_the_others store_ab list_a cells_a
           (1%positive, 1) (2%positive, 2) rep_list_a eq_refl eq_refl).
Defined.

Lemma operations_on_a_list_leave_a_separate_list_example :
  rep store_ab list_a cells_a ∧ rep store_ab list_b cells_b
  ∧ separate cells_a cells_b
  ∧ (∀ x h' this',
       push_front store_ab list_a x = Ok (h', this') → rep h' list_b cells_b)
  ∧ (∀ x h' this',
       push_back store_ab list_a x = Ok (h', this') → rep h' list_b cells_b)
  ∧ (∀ h' this' x,
       pop_front store_ab list_a = Ok (h', this', x) → rep h' list_b cells_b)
  ∧ (∀ h' this' x,
       pop_back store_ab list_a = Ok (h', this', x) → rep h' list_b cells_b)
  ∧ (∀ fuel h' this',
       clear fuel store_ab list_a = Ok (h', this') → rep h' list_b cells_b)
  ∧ (∀ a x h', a ∈ cells_a.*1 →
       iterator_assign store_ab (Some a) x = Ok h' → rep h' list_b cells_b)
  ∧ rep (destructor store_ab list_a) list_b cells_b.
Proof.
  split; [exact rep_list_a|]. split; [exact rep_list_b|].
  split; [exact separate_cells_a_b|].
  exact (operations_on_a_list_leave_a_separate_list store_ab list_a list_b
           cells_a cells_b rep_list_a rep_list_b separate_cells_a_b).
Defined.

Lemma destructor_destroys_a_single_node_example :
  rep store_ab list_b cells_b ∧ (length cells_b ≤ 1)%nat
  ∧ (∀ a, a ∈ cells_b.*1 → destructor store_ab list_b !! a = None)
  ∧ (∀ b, b ∉ cells_b.*1 →
       destructor store_ab list_b !! b = store_ab !! b)
  ∧ live_nodes store_ab
    = (live_nodes (destructor store_ab list_b) + length cells_b)%nat.
Proof.
  assert (length cells_b ≤ 1)%nat as Hlen by (simpl; lia).
  split; [exact rep_list_b|]. split; [exact Hlen|].
  exact (destructor_destroys_a_single_node store_ab list_b cells_b
           rep_list_b Hlen).
Defined.
